(** * generic-device-plugin: the device inventory of [deviceplugin/generic.go]

    A shallow embedding of [GenericPlugin]: device discovery by glob
    pattern ([discover]), reconciliation of the device table
    ([refreshDevices]), the allocation handler ([Allocate]) and the watch
    loop ([ListAndWatch]), followed by the properties of these operations.

    Go strings are byte strings and are modelled by [string]; the device
    table [map[string]device] is a [gmap string device]; [uint] counters
    are [N]; slices are lists. *)

From stdpp Require Import gmap strings list fin_maps sorting.
From Stdlib Require Import NArith Ascii DecimalString.

#[local] Set Warnings "-clear-no-such-hyp".

Local Open Scope string_scope.
Local Open Scope list_scope.
Local Open Scope nat_scope.

(** ** The kubelet device-plugin API ([k8s.io/kubelet/.../v1beta1])

    Only the message fields that [generic.go] reads or writes.  The
    messages are the ones that gRPC decodes, so every pointer in a request
    is taken to be non-nil. *)
Module v1beta1.

Definition Healthy : string := "Healthy".
Definition Unhealthy : string := "Unhealthy".

Record Device := mkDevice { ID : string; Health : string }.

Record DeviceSpec := mkDeviceSpec {
  ContainerPath : string;
  HostPath : string;
  Permissions : string }.

Record ContainerAllocateRequest := mkContainerAllocateRequest {
  DevicesIDs : list string }.

Record AllocateRequest := mkAllocateRequest {
  ContainerRequests : list ContainerAllocateRequest }.

Record ContainerAllocateResponse := mkContainerAllocateResponse {
  Devices : list DeviceSpec }.

Record AllocateResponse := mkAllocateResponse {
  ContainerResponses : list ContainerAllocateResponse }.

Record ListAndWatchResponse := mkListAndWatchResponse {
  ListDevices : list Device }.

Record DevicePluginOptions := mkDevicePluginOptions {
  PreStartRequired : bool;
  GetPreferredAllocationAvailable : bool }.

Record PreStartContainerRequest := mkPreStartContainerRequest {
  PreStartDevicesIDs : list string }.

Record ContainerPreferredAllocationRequest :=
  mkContainerPreferredAllocationRequest {
    AvailableDeviceIDs : list string;
    MustIncludeDeviceIDs : list string;
    AllocationSize : Z }.

Record PreferredAllocationRequest := mkPreferredAllocationRequest {
  PreferredContainerRequests : list ContainerPreferredAllocationRequest }.

Record ContainerPreferredAllocationResponse :=
  mkContainerPreferredAllocationResponse {
    DeviceIDs : list string }.

Record PreferredAllocationResponse := mkPreferredAllocationResponse {
  PreferredContainerResponses : list ContainerPreferredAllocationResponse }.

End v1beta1.

(** ** Go standard library functions used by the plugin *)

(** [crypto/sha1]: the SHA-1 digest (FIPS 180-4) on 32-bit words held in
    [N], every addition and rotation reduced modulo [2^32]. *)
Module sha1.
Local Open Scope N_scope.

Definition mask32 : N := 0xFFFFFFFF.
Definition add32 (x y : N) : N := (x + y) mod 2 ^ 32.
Definition rotl (n x : N) : N :=
  N.land (N.lor (N.shiftl x n) (N.shiftr x (32 - n))) mask32.
Definition not32 (x : N) : N := N.lxor x mask32.

Fixpoint bytes_of_string (s : string) : list N :=
  match s with
  | EmptyString => []
  | String c s' => N_of_ascii c :: bytes_of_string s'
  end.

(** Big-endian encoding of [x] on [n] bytes. *)
Fixpoint be_bytes (n : nat) (x : N) : list N :=
  match n with
  | O => []
  | S n' => N.shiftr x (8 * N.of_nat n') mod 256 :: be_bytes n' x
  end.

Fixpoint be_word (bs : list N) (acc : N) : N :=
  match bs with
  | [] => acc
  | b :: bs' => be_word bs' (N.lor (N.shiftl acc 8) b)
  end.

(** The message followed by 0x80, zero bytes up to 56 modulo 64, and the
    bit length on eight bytes. *)
Definition pad (msg : list N) : list N :=
  let len := length msg in
  let zeros := ((119 - len mod 64) mod 64)%nat in
  msg ++ 128 :: replicate zeros 0 ++ be_bytes 8 (8 * N.of_nat len).

Fixpoint words (n : nat) (bs : list N) : list N :=
  match n with
  | O => []
  | S n' => be_word (take 4 bs) 0 :: words n' (drop 4 bs)
  end.

Fixpoint blocks (n : nat) (bs : list N) : list (list N) :=
  match n with
  | O => []
  | S n' => words 16 (take 64 bs) :: blocks n' (drop 64 bs)
  end.

(** The message schedule: [w] grows from 16 to 80 words. *)
Fixpoint schedule (n : nat) (w : list N) : list N :=
  match n with
  | O => w
  | S n' =>
      let t := length w in
      let x := N.lxor (N.lxor (nth (t - 3) w 0) (nth (t - 8) w 0))
                      (N.lxor (nth (t - 14) w 0) (nth (t - 16) w 0)) in
      schedule n' (w ++ [rotl 1 x])
  end.

Definition f (t : nat) (b c d : N) : N :=
  if (t <? 20)%nat then N.lor (N.land b c) (N.land (not32 b) d)
  else if (t <? 40)%nat then N.lxor (N.lxor b c) d
  else if (t <? 60)%nat then
    N.lor (N.lor (N.land b c) (N.land b d)) (N.land c d)
  else N.lxor (N.lxor b c) d.

Definition K (t : nat) : N :=
  if (t <? 20)%nat then 0x5A827999
  else if (t <? 40)%nat then 0x6ED9EBA1
  else if (t <? 60)%nat then 0x8F1BBCDC
  else 0xCA62C1D6.

Definition state : Type := N * N * N * N * N.

Definition round (w : list N) (s : state) (t : nat) : state :=
  let '(a, b, c, d, e) := s in
  let temp :=
    add32 (add32 (add32 (add32 (rotl 5 a) (f t b c d)) e) (K t))
          (nth t w 0) in
  (temp, a, rotl 30 b, c, d).

Definition compress (h : state) (block : list N) : state :=
  let w := schedule 64 block in
  let '(a, b, c, d, e) := foldl (round w) h (seq 0 80) in
  let '(h0, h1, h2, h3, h4) := h in
  (add32 h0 a, add32 h1 b, add32 h2 c, add32 h3 d, add32 h4 e).

Definition init : state :=
  (0x67452301, 0xEFCDAB89, 0x98BADCFE, 0x10325476, 0xC3D2E1F0).

(** The 20 digest bytes of a message. *)
Definition sum (msg : string) : list N :=
  let padded := pad (bytes_of_string msg) in
  let '(h0, h1, h2, h3, h4) :=
    foldl compress init (blocks (length padded / 64) padded) in
  be_bytes 4 h0 ++ be_bytes 4 h1 ++ be_bytes 4 h2 ++ be_bytes 4 h3
    ++ be_bytes 4 h4.

(** The [hash.Hash] interface: [New], [Write], [Sum(nil)].  The state of
    a hash is the bytes written so far. *)
Definition digest : Type := string.
Definition New : digest := "".
Definition Write (h : digest) (p : string) : digest := h +:+ p.
Definition Sum (h : digest) : list N := sum h.

End sha1.

(** [fmt.Sprintf("%x", b)] on a byte slice: two lowercase hexadecimal
    digits per byte. *)
Definition hexdigit (n : N) : ascii :=
  match String.get (N.to_nat n) "0123456789abcdef" with
  | Some c => c
  | None => "0"%char
  end.

Fixpoint hex (bs : list N) : string :=
  match bs with
  | [] => ""
  | b :: bs' =>
      String (hexdigit (b / 16)) (String (hexdigit (b mod 16)) (hex bs'))
  end.

(** [strconv.FormatUint(n, 10)]. *)
Definition FormatUint (n : N) : string :=
  NilEmpty.string_of_uint (N.to_uint n).

(** [sort.Strings]: increasing byte-wise lexicographic order. *)
Definition string_le (a b : string) : Prop := Is_true (String.leb a b).

Global Instance string_le_dec : RelDecision string_le.
Proof. intros a b. unfold string_le. apply _. Defined.

Definition sortStrings (l : list string) : list string :=
  merge_sort string_le l.


(** ** Data model *)

(** [DeviceSpec]: a resource name, the groups of glob patterns and the
    number of instances per match.  [Count] is a Go [uint]. *)
Record DeviceSpec := mkDeviceSpec {
  Resource : string;
  Groups : list (list string);
  Count : N }.

(** [device] embeds [v1beta1.Device] and adds the resolved paths. *)
Record device := mkdevice {
  Device : v1beta1.Device;
  paths : list string }.

(** The promoted fields [d.ID] and [d.Health] of the embedded struct. *)
Definition ID (d : device) : string := v1beta1.ID (Device d).
Definition Health (d : device) : string := v1beta1.Health (Device d).

Definition set_ID (id : string) (d : device) : device :=
  mkdevice (v1beta1.mkDevice id (Health d)) (paths d).
Definition set_paths (ps : list string) (d : device) : device :=
  mkdevice (Device d) ps.

(** [GenericPlugin] without its logger.  The mutex [mu] has no field: its
    [Lock] and [Unlock] calls are recorded as events (below).  The two
    Prometheus instruments hold the integers that the code converts with
    [float64(len(...))]. *)
Record GenericPlugin := mkGenericPlugin {
  ds : DeviceSpec;
  devices : gmap string device;
  deviceGauge : nat;
  allocationsCounter : nat }.

Definition NewGenericPlugin (spec : DeviceSpec) : GenericPlugin :=
  mkGenericPlugin spec ∅ 0 0.

Definition set_devices (m : gmap string device) (gp : GenericPlugin) :=
  mkGenericPlugin (ds gp) m (deviceGauge gp) (allocationsCounter gp).
Definition set_deviceGauge (n : nat) (gp : GenericPlugin) :=
  mkGenericPlugin (ds gp) (devices gp) n (allocationsCounter gp).
Definition add_allocationsCounter (n : nat) (gp : GenericPlugin) :=
  mkGenericPlugin (ds gp) (devices gp) (deviceGauge gp)
    (allocationsCounter gp + n).

(** ** Errors, panics and the environment *)

Inductive error :=
  | ErrBadPattern
      (* filepath.ErrBadPattern, the only error of filepath.Glob *)
  | ErrDiscover (cause : error)
      (* fmt.Errorf("failed to discover devices: %v", err) *)
  | ErrNotExist (id : string)
      (* fmt.Errorf("requested device does not exist %q", id) *)
  | ErrNotHealthy (id : string)
      (* fmt.Errorf("requested device is not healthy %q", id) *)
  | ErrSend (msg : string)
      (* an error returned by stream.Send *).

(** A Go call returns normally, returns an error, or panics with
    "index out of range [i] with length n". *)
Inductive result (A : Type) :=
  | Ok (a : A)
  | Err (e : error)
  | Panic (i n : nat).
Arguments Ok {A} a.
Arguments Err {A} e.
Arguments Panic {A} i n.

Global Instance result_ret : MRet result := λ A a, Ok a.
Global Instance result_bind : MBind result := λ A B f r,
  match r with
  | Ok a => f a
  | Err e => Err e
  | Panic i n => Panic i n
  end.

(** A [for ... range l] loop that threads a loop state and stops at the
    first error or panic. *)
Fixpoint foldlR {A S : Type} (f : S → A → result S) (s : S) (l : list A)
    : result S :=
  match l with
  | [] => Ok s
  | x :: l' => s' ← f s x; foldlR f s' l'
  end.

(** What one call, or one tick of the watch loop, depends on outside the
    plugin: the file system as seen by [filepath.Glob] ([None] for a
    malformed pattern), the outcome of [stream.Send] ([None] for success),
    and the order in which a [for ... range] over a map visits its
    entries, which Go leaves unspecified.  The file system does not change
    during one call of [discover]. *)
Record World := mkWorld {
  Glob : string → option (list string);
  Send : v1beta1.ListAndWatchResponse → option error;
  rangeMap : gmap string device → list (string * device) }.

(** A world is well formed when [rangeMap] visits every entry once. *)
Definition World_ok (w : World) : Prop :=
  ∀ m, rangeMap w m ≡ₚ map_to_list m.

(** ** Discovery ([discover], lines 93-131) *)

(** Lines 99-110: resolve the patterns of a group from index [i] on,
    storing the sorted matches in [paths[i]] and updating [length].  The
    local slice [paths] is [gpaths] here, [length] is [len]. *)
Fixpoint globGroup (w : World) (i : nat) (group : list string)
    (gpaths : list (list string)) (len : nat)
    : result (list (list string) * nat) :=
  match group with
  | [] => Ok (gpaths, len)
  | path :: group' =>
      match Glob w path with
      | None => Err ErrBadPattern
      | Some matches =>
          let matches := sortStrings matches in
          let gpaths := <[i := matches]> gpaths in
          let len :=
            if ((len =? 0)%nat || (length matches <? len)%nat)
            then length matches else len in
          globGroup w (S i) group' gpaths len
      end
  end.

(** The checked index expression [paths[k][i]]. *)
Definition index2 (gpaths : list (list string)) (k i : nat)
    : result string :=
  match gpaths !! k with
  | None => Panic k (length gpaths)
  | Some ps =>
      match ps !! i with
      | None => Panic i (length ps)
      | Some p => Ok p
      end
  end.

(** Lines 113-125: the device of slot [i] and ordinal [j]. *)
Definition newDevice (group : list string) (gpaths : list (list string))
    (i : nat) (j : N) : result device :=
  let h := sha1.Write sha1.New (FormatUint j) in
  let d := mkdevice (v1beta1.mkDevice "" v1beta1.Healthy)
                    (replicate (length group) "") in
  '(h, d) ← foldlR (λ '(h, d) k,
      p ← index2 gpaths k i;
      Ok (sha1.Write h p, set_paths (<[k := p]> (paths d)) d))
    (h, d) (seq 0 (length group));
  Ok (set_ID (hex (sha1.Sum h)) d).

(** The values of [j] in [for j := uint(0); j < Count; j++]. *)
Definition ordinals (count : N) : list N :=
  N.of_nat <$> seq 0 (N.to_nat count).

(** Lines 96-128: one iteration of the loop over the groups. *)
Definition discoverGroup (w : World) (count : N) (devs : list device)
    (group : list string) : result (list device) :=
  '(gpaths, len) ← globGroup w 0 group (replicate (length group) []) 0;
  foldlR (λ devs i,
      foldlR (λ devs j,
          d ← newDevice group gpaths i j;
          Ok (devs ++ [d]))
        devs (ordinals count))
    devs (seq 0 len).

Definition discover (w : World) (spec : DeviceSpec) : result (list device) :=
  foldlR (discoverGroup w (Count spec)) [] (Groups spec).

(** ** Operations on the plugin: state, result and events

    A method of [GenericPlugin] runs from a state of the plugin to a
    result, the state it leaves and the events it performed.  The events
    record the calls on the mutex [gp.mu], every read and write of the
    shared table [gp.devices], the messages given to [stream.Send] and the
    waits of the watch loop. *)
Inductive event :=
  | EvLock
  | EvUnlock
  | EvReadDevices
  | EvWriteDevices
  | EvSend (res : v1beta1.ListAndWatchResponse)
  | EvSleep.

Record outcome (A : Type) := mkOutcome {
  value : result A;
  final : GenericPlugin;
  events : list event }.
Arguments mkOutcome {A} value final events.
Arguments value {A} o.
Arguments final {A} o.
Arguments events {A} o.

Definition M (A : Type) : Type := GenericPlugin → outcome A.

Global Instance M_ret : MRet M := λ A a gp, mkOutcome (Ok a) gp [].
Global Instance M_bind : MBind M := λ A B f m gp,
  let o := m gp in
  match value o with
  | Ok a =>
      let o' := f a (final o) in
      mkOutcome (value o') (final o') (events o ++ events o')
  | Err e => mkOutcome (Err e) (final o) (events o)
  | Panic i n => mkOutcome (Panic i n) (final o) (events o)
  end.

(** [return ..., err] *)
Definition fail {A : Type} (e : error) : M A :=
  λ gp, mkOutcome (Err e) gp [].

(** [gp.mu.Lock(); defer gp.mu.Unlock()] followed by the rest of the
    method: the deferred call runs however the body ends. *)
Definition withLock {A : Type} (body : M A) : M A :=
  λ gp, let o := body gp in
        mkOutcome (value o) (final o) (EvLock :: events o ++ [EvUnlock]).

(** An expression that reads [gp.devices]. *)
Definition readDevices : M (gmap string device) :=
  λ gp, mkOutcome (Ok (devices gp)) gp [EvReadDevices].

(** [gp.devices = m] and [gp.devices[id] = d]. *)
Definition writeDevices (m : gmap string device) : M unit :=
  λ gp, mkOutcome (Ok ()) (set_devices m gp) [EvWriteDevices].
Definition storeDevice (id : string) (d : device) : M unit :=
  λ gp, mkOutcome (Ok ()) (set_devices (<[id := d]> (devices gp)) gp)
          [EvWriteDevices].

Definition modify (f : GenericPlugin → GenericPlugin) : M unit :=
  λ gp, mkOutcome (Ok ()) (f gp) [].

Definition send (w : World) (res : v1beta1.ListAndWatchResponse) : M unit :=
  λ gp, mkOutcome (match Send w res with None => Ok () | Some e => Err e end)
          gp [EvSend res].

Definition sleep : M unit := λ gp, mkOutcome (Ok ()) gp [EvSleep].

(** A [for ... range l] loop in [M] threading a loop state. *)
Fixpoint forM {A S : Type} (f : S → A → M S) (s : S) (l : list A) : M S :=
  match l with
  | [] => mret s
  | x :: l' => s' ← f s x; forM f s' l'
  end.

(** ** Reconciliation ([refreshDevices], lines 136-170) *)

(** Lines 164-168: [true] when the loop leaves through [return false, nil],
    that is when some key of [old] is missing from [gp.devices]. *)
Fixpoint removedDevice (ks : list string) : M bool :=
  match ks with
  | [] => mret false
  | k :: ks' =>
      cur ← readDevices;
      match cur !! k with
      | None => mret true
      | Some _ => removedDevice ks'
      end
  end.

Definition refreshDevices (w : World) : M bool :=
  λ gp,
  match discover w (ds gp) with
  | Err e => mkOutcome (Err (ErrDiscover e)) gp []
  | Panic i n => mkOutcome (Panic i n) gp []
  | Ok devs =>
      (modify (set_deviceGauge (length devs));;
       withLock (
         old ← readDevices;
         writeDevices ∅;;
         (* var equal bool *)
         equal ← forM (λ equal d,
             storeDevice (ID d) d;;
             mret (match old !! ID d with
                   | None => false
                   | Some _ => equal
                   end))
           false devs;
         if negb equal then (mret false : M bool)
         else
           removedDevice (fst <$> rangeMap w old) ≫= λ removed : bool,
           if removed then (mret false : M bool) else mret true)) gp
  end.

(** ** Allocation ([Allocate], lines 178-207) *)

(** Lines 195-201: the bindings of one device appended to [resp.Devices]. *)
Definition appendBindings (resp : list v1beta1.DeviceSpec) (dev : device)
    : list v1beta1.DeviceSpec :=
  foldl (λ resp path,
      resp ++ [v1beta1.mkDeviceSpec path path "mrw"])
    resp (paths dev).

(** Lines 188-201: one requested identifier, [resp.Devices] before and
    after. *)
Definition allocateDevice (resp : list v1beta1.DeviceSpec) (id : string)
    : M (list v1beta1.DeviceSpec) :=
  cur ← readDevices;
  match cur !! id with
  | None => fail (ErrNotExist id)
  | Some dev =>
      if decide (Health dev ≠ v1beta1.Healthy) then fail (ErrNotHealthy id)
      else mret (appendBindings resp dev)
  end.

(** Lines 184-204: the loop over the container requests. *)
Definition allocateRequests
    : list v1beta1.ContainerAllocateResponse →
      list v1beta1.ContainerAllocateRequest →
      M (list v1beta1.ContainerAllocateResponse) :=
  forM (λ res r,
      (* resp := new(v1beta1.ContainerAllocateResponse) *)
      resp ← forM allocateDevice [] (v1beta1.DevicesIDs r);
      mret (res ++ [v1beta1.mkContainerAllocateResponse resp])).

Definition Allocate (req : v1beta1.AllocateRequest)
    : M v1beta1.AllocateResponse :=
  withLock (
    res ← allocateRequests [] (v1beta1.ContainerRequests req);
    modify (add_allocationsCounter (length res));;
    mret (v1beta1.mkAllocateResponse res)).

(** ** The watch loop ([ListAndWatch], lines 215-238)

    The loop only leaves through an error, so it is cut where it blocks,
    at [<-time.After(deviceCheckInterval)]: the start ([watch_start],
    [ListAndWatch_start]) runs from the call to the first wait, a tick
    ([watch_tick], [ListAndWatch_tick]) from one wait to the next.  A result [Ok ()] means that the loop is waiting, [Err e] that
    [ListAndWatch] returned [e]. *)

(** Lines 223-231. *)
Definition pushDevices (w : World) (ok : bool) : M unit :=
  if negb ok then
    cur ← readDevices;
    let res := foldl (λ res '(_, dev),
        res ++ [v1beta1.mkDevice (ID dev) (Health dev)])
      [] (rangeMap w cur) in
    send w (v1beta1.mkListAndWatchResponse res)
  else mret ().

(** The loop is written once, with the reconciliation that it calls as
    [refresh]; [ListAndWatch] is the loop over [refreshDevices]. *)

(** Lines 217-232: the first reconciliation, [ok := false], the first pass
    through the loop up to the wait. *)
Definition watch_start (refresh : World → M bool) (w : World) : M unit :=
  refresh w;;
  let ok := false in
  pushDevices w ok;;
  sleep.

(** Lines 233-236, then 223-232: wake up, reconcile, loop. *)
Definition watch_tick (refresh : World → M bool) (w : World) : M unit :=
  ok ← refresh w;
  pushDevices w ok;;
  sleep.

(** The call in world [w0] followed by one tick in each world of [ws]. *)
Definition watch (refresh : World → M bool) (w0 : World) (ws : list World)
    : M unit :=
  watch_start refresh w0;;
  forM (λ _ w, watch_tick refresh w) () ws.

Definition ListAndWatch_start (w : World) : M unit :=
  watch_start refreshDevices w.

Definition ListAndWatch_tick (w : World) : M unit :=
  watch_tick refreshDevices w.

(** [ListAndWatch w0 ws]: the call in world [w0] followed by one tick in
    each world of [ws]. *)
Definition ListAndWatch (w0 : World) (ws : list World) : M unit :=
  watch refreshDevices w0 ws.

(** ** Derived notions used in the statements *)

(** The table that the loop of lines 153-158 builds from the candidate
    list, starting from [m]. *)
Definition tableOf (m : gmap string device) (devs : list device)
    : gmap string device :=
  foldl (λ m d, <[ID d := d]> m) m devs.

(** The identifiers of a candidate list, as a set. *)
Definition idSet (devs : list device) : gset string :=
  list_to_set (ID <$> devs).

(** The bindings of one device: one per resolved path, in order. *)
Definition bindingsOf (dev : device) : list v1beta1.DeviceSpec :=
  (λ path, v1beta1.mkDeviceSpec path path "mrw") <$> paths dev.

(** An identifier that [Allocate] accepts in table [m], with its device. *)
Definition allocatable (m : gmap string device) (id : string) (dev : device)
    : Prop :=
  m !! id = Some dev ∧ Health dev = v1beta1.Healthy.

(** An identifier that [Allocate] rejects, with the error it reports. *)
Definition rejected (m : gmap string device) (id : string) (e : error)
    : Prop :=
  (m !! id = None ∧ e = ErrNotExist id) ∨
  (∃ dev, m !! id = Some dev ∧ Health dev ≠ v1beta1.Healthy ∧
          e = ErrNotHealthy id).

(** What a container response holds for a container request in table
    [m]: the bindings of the requested devices, in request order. *)
Definition answers (m : gmap string device)
    (r : v1beta1.ContainerAllocateRequest)
    (resp : v1beta1.ContainerAllocateResponse) : Prop :=
  ∃ devs, Forall2 (allocatable m) (v1beta1.DevicesIDs r) devs ∧
          v1beta1.Devices resp = concat (bindingsOf <$> devs).

(** The identifier as the specification words it: the digest of the
    decimal ordinal followed by each path, in hexadecimal. *)
Definition spec_identifier (j : N) (ps : list string) : string :=
  hex (sha1.sum (FormatUint j +:+ String.concat "" ps)).

(** What [discover] guarantees of a device, for a configured count. *)
Definition discovered (count : N) (d : device) : Prop :=
  Health d = v1beta1.Healthy ∧
  ∃ j, (j < count)%N ∧ ID d = spec_identifier j (paths d).

(** The states of the plugin that a run can reach: the plugin as
    [NewGenericPlugin] builds it, and the state that any of its methods
    leaves, in any environment. *)
Inductive reachable (spec : DeviceSpec) : GenericPlugin → Prop :=
  | reach_new : reachable spec (NewGenericPlugin spec)
  | reach_refresh w gp :
      reachable spec gp → reachable spec (final (refreshDevices w gp))
  | reach_allocate req gp :
      reachable spec gp → reachable spec (final (Allocate req gp))
  | reach_watch w0 ws gp :
      reachable spec gp → reachable spec (final (ListAndWatch w0 ws gp)).

(** Every device of the table is Healthy and stored under its own
    identifier. *)
Definition healthyTable (gp : GenericPlugin) : Prop :=
  ∀ id d, devices gp !! id = Some d → Health d = v1beta1.Healthy ∧ ID d = id.

(** An operation that keeps [P] however it ends. *)
Definition preserves (P : GenericPlugin → Prop) {A : Type} (m : M A) : Prop :=
  ∀ gp, P gp → P (final (m gp)).

(** The messages given to [stream.Send], in order. *)
Fixpoint sentOf (evs : list event) : list v1beta1.ListAndWatchResponse :=
  match evs with
  | [] => []
  | EvSend res :: evs' => res :: sentOf evs'
  | _ :: evs' => sentOf evs'
  end.

(** [res] lists every device of table [m] once, by identifier and health. *)
Definition fullList (m : gmap string device)
    (res : v1beta1.ListAndWatchResponse) : Prop :=
  v1beta1.ListDevices res ≡ₚ
  (λ kd, v1beta1.mkDevice (ID kd.2) (Health kd.2)) <$> map_to_list m.

(** The message that lines 224-227 build from the table. *)
Definition listResponse (w : World) (m : gmap string device)
    : v1beta1.ListAndWatchResponse :=
  v1beta1.mkListAndWatchResponse
    (foldl (λ res '(_, dev), res ++ [v1beta1.mkDevice (ID dev) (Health dev)])
       [] (rangeMap w m)).

(** From waking up to the next wait, for the outcome [r] of the
    reconciliation that left the plugin in [gp']: the plugin stays as the
    reconciliation left it, and [r] decides what the loop sends and how it
    continues. *)
Definition afterRefresh (w : World) (r : result bool) (gp' : GenericPlugin)
    (o : outcome ()) : Prop :=
  final o = gp' ∧
  match r with
  | Ok true => sentOf (events o) = [] ∧ value o = Ok ()
  | Ok false =>
      ∃ res, fullList (devices gp') res ∧
             sentOf (events o) = [res] ∧
             value o = match Send w res with
                       | None => Ok ()
                       | Some e => Err e
                       end
  | Err e => sentOf (events o) = [] ∧ value o = Err e
  | Panic i n => sentOf (events o) = [] ∧ value o = Panic i n
  end.

(** The first reconciliation: its result is dropped and [ok] starts at
    [false]. *)
Definition forced (r : result bool) : result bool :=
  match r with
  | Ok _ => Ok false
  | Err e => Err e
  | Panic i n => Panic i n
  end.

(** [guarded held evs]: every read and write of [gp.devices] in [evs]
    happens while [gp.mu] is held by the caller, [held] telling whether it
    is before the first event. *)
Fixpoint guarded (held : bool) (evs : list event) : bool :=
  match evs with
  | [] => true
  | EvLock :: evs' => guarded true evs'
  | EvUnlock :: evs' => guarded false evs'
  | EvReadDevices :: evs' => held && guarded held evs'
  | EvWriteDevices :: evs' => held && guarded held evs'
  | _ :: evs' => guarded held evs'
  end.

(** Line 107 applied to the running [length] and a match count. *)
Definition shorter (len n : nat) : nat :=
  if (len =? 0)%nat || (n <? len)%nat then n else len.

(** The least element of a list of match counts, 0 for no pattern. *)
Definition min_list (l : list nat) : nat :=
  match l with
  | [] => 0
  | n :: l' => foldl Nat.min n l'
  end.

(** ** Example environments *)

(** A file system given by the matches of each pattern; [None] marks a
    malformed pattern and a pattern that is not listed matches nothing. *)
Definition globTable (table : gmap string (option (list string)))
    (pattern : string) : option (list string) :=
  default (Some []) (table !! pattern).

(** A world where every send succeeds and maps are visited in the order
    of [map_to_list]. *)
Definition quietWorld (table : gmap string (option (list string))) : World :=
  mkWorld (globTable table) (λ _, None) map_to_list.

(** Two serial adapters are plugged in. *)
Definition serialWorld : World :=
  quietWorld {[ "/dev/ttyUSB*" := Some ["/dev/ttyUSB1"; "/dev/ttyUSB0"] ]}.

Definition serialSpec : DeviceSpec :=
  mkDeviceSpec "serial" [["/dev/ttyUSB*"]] 1.

(** A group of two patterns, the first of which matches nothing. *)
Definition videoWorld : World :=
  quietWorld {[ "/dev/video*" := Some [];
                "/dev/media*" := Some ["/dev/media0"] ]}.

Definition videoSpec : DeviceSpec :=
  mkDeviceSpec "video" [["/dev/video*"; "/dev/media*"]] 1.

(** The plugin for [serialSpec] after a first reconciliation in
    [serialWorld]. *)
Definition serialPlugin : GenericPlugin :=
  final (refreshDevices serialWorld (NewGenericPlugin serialSpec)).

(** A group of three patterns, the second of which matches nothing. *)
Definition driWorld : World :=
  quietWorld {[ "/dev/dri/card*" := Some ["/dev/dri/card0"; "/dev/dri/card1"];
                "/dev/dri/renderD*" := Some [];
                "/dev/fb*" := Some ["/dev/fb0"; "/dev/fb1"; "/dev/fb2"] ]}.

Definition driSpec : DeviceSpec :=
  mkDeviceSpec "gpu" [["/dev/dri/card*"; "/dev/dri/renderD*"; "/dev/fb*"]] 2.

(** The two devices of [serialWorld]. *)
Definition usb0 : device :=
  mkdevice
    (v1beta1.mkDevice "244c4eb967dd5fcfdc3d774106a9b1a20992aa12"
       v1beta1.Healthy)
    ["/dev/ttyUSB0"].

Definition usb1 : device :=
  mkdevice
    (v1beta1.mkDevice "3ad960f592ac6c2e3cf7bbaa81d0c0c01af40060"
       v1beta1.Healthy)
    ["/dev/ttyUSB1"].

(** One container asks for the first adapter and for a device "B" that
    does not exist. *)
Definition requestUnknown : v1beta1.AllocateRequest :=
  v1beta1.mkAllocateRequest [v1beta1.mkContainerAllocateRequest [ID usb0; "B"]].

(** One container asks for both adapters, a second one for nothing. *)
Definition requestBoth : v1beta1.AllocateRequest :=
  v1beta1.mkAllocateRequest
    [v1beta1.mkContainerAllocateRequest [ID usb1; ID usb0];
     v1beta1.mkContainerAllocateRequest []].

Definition responseBoth : v1beta1.AllocateResponse :=
  v1beta1.mkAllocateResponse
    [v1beta1.mkContainerAllocateResponse
       [v1beta1.mkDeviceSpec "/dev/ttyUSB1" "/dev/ttyUSB1" "mrw";
        v1beta1.mkDeviceSpec "/dev/ttyUSB0" "/dev/ttyUSB0" "mrw"];
     v1beta1.mkContainerAllocateResponse []].

(** Two patterns matching 3 and 5 paths. *)
Definition fpgaMatches : list (list string) :=
  [ ["/dev/fpga2"; "/dev/fpga0"; "/dev/fpga1"];
    ["/sys/class/fpga/e"; "/sys/class/fpga/a"; "/sys/class/fpga/d";
     "/sys/class/fpga/b"; "/sys/class/fpga/c"] ].

Definition fpgaGroup : list string := ["/dev/fpga*"; "/sys/class/fpga/*"].

Definition fpgaWorld : World :=
  quietWorld (list_to_map (zip fpgaGroup (Some <$> fpgaMatches))).

(** One pattern with two matches, two instances per match. *)
Definition tmpWorld : World :=
  quietWorld {[ "/tmp/dev/a*" := Some ["/tmp/dev/a1"; "/tmp/dev/a2"] ]}.

Definition tmpSpec : DeviceSpec := mkDeviceSpec "tmp" [["/tmp/dev/a*"]] 2.

Definition tmpDevices : list device :=
  [ mkdevice (v1beta1.mkDevice "a33f7e30058ab486a4bdbd8eca42e208fecb1be1"
                v1beta1.Healthy) ["/tmp/dev/a1"];
    mkdevice (v1beta1.mkDevice "8e05721b0f6046ad641b6b92c9cc5a9b4428b21f"
                v1beta1.Healthy) ["/tmp/dev/a1"];
    mkdevice (v1beta1.mkDevice "35ff6d7a8444dde1e9bfcc454a5238a7371f535b"
                v1beta1.Healthy) ["/tmp/dev/a2"];
    mkdevice (v1beta1.mkDevice "1e0a34125e464469d212b846dd6a68a7d96db209"
                v1beta1.Healthy) ["/tmp/dev/a2"] ].

(** [serialWorld] after the second adapter is unplugged. *)
Definition unpluggedWorld : World :=
  quietWorld {[ "/dev/ttyUSB*" := Some ["/dev/ttyUSB0"] ]}.

(** ** The remaining methods of [GenericPlugin] *)

(** [GetDeviceState] (lines 173-175). *)
Definition GetDeviceState (_ : string) : string := v1beta1.Healthy.

(** [GetDevicePluginOptions] (lines 210-212): the zero value of the
    options. *)
Definition GetDevicePluginOptions : M v1beta1.DevicePluginOptions :=
  mret (v1beta1.mkDevicePluginOptions false false).

(** [PreStartContainer] (lines 241-243): the empty response, here [()]. *)
Definition PreStartContainer (_ : v1beta1.PreStartContainerRequest)
    : M unit :=
  mret ().

(** [GetPreferredAllocation] (lines 246-248): a response without
    container responses. *)
Definition GetPreferredAllocation (_ : v1beta1.PreferredAllocationRequest)
    : M v1beta1.PreferredAllocationResponse :=
  mret (v1beta1.mkPreferredAllocationResponse []).

(** The states that a run can reach through any of the methods. *)
Inductive reaches (spec : DeviceSpec) : GenericPlugin → Prop :=
  | reaches_new : reaches spec (NewGenericPlugin spec)
  | reaches_refresh w gp :
      reaches spec gp → reaches spec (final (refreshDevices w gp))
  | reaches_allocate req gp :
      reaches spec gp → reaches spec (final (Allocate req gp))
  | reaches_watch w0 ws gp :
      reaches spec gp → reaches spec (final (ListAndWatch w0 ws gp))
  | reaches_options gp :
      reaches spec gp → reaches spec (final (GetDevicePluginOptions gp))
  | reaches_prestart req gp :
      reaches spec gp → reaches spec (final (PreStartContainer req gp))
  | reaches_preferred req gp :
      reaches spec gp → reaches spec (final (GetPreferredAllocation req gp)).

(** ** Notions for the properties of allocation *)

(** Lines 188-194 on one identifier: the error it raises, if any. *)
Definition checkDevice (m : gmap string device) (id : string)
    : option error :=
  match m !! id with
  | None => Some (ErrNotExist id)
  | Some dev =>
      if decide (Health dev ≠ v1beta1.Healthy) then Some (ErrNotHealthy id)
      else None
  end.

(** All the identifiers of a request, container after container. *)
Definition requestedIDs (req : v1beta1.AllocateRequest) : list string :=
  concat (v1beta1.DevicesIDs <$> v1beta1.ContainerRequests req).

(** The error of the first identifier that is rejected. *)
Definition firstRejection (m : gmap string device) (ids : list string)
    : option error :=
  head (omap (checkDevice m) ids).

(** The bindings of the devices of one container request. *)
Definition containerResponse (m : gmap string device)
    (r : v1beta1.ContainerAllocateRequest)
    : v1beta1.ContainerAllocateResponse :=
  v1beta1.mkContainerAllocateResponse
    (concat ((λ id, from_option bindingsOf [] (m !! id))
               <$> v1beta1.DevicesIDs r)).

(** ** Notions for the properties of discovery *)

(** The paths at position [i] of the sorted matches of each pattern. *)
Definition slotPaths (raws : list (list string)) (i : nat) : list string :=
  (λ raw, default "" (sortStrings raw !! i)) <$> raws.

(** The device of position [i] and ordinal [j]. *)
Definition slotDevice (raws : list (list string)) (i : nat) (j : N)
    : device :=
  mkdevice
    (v1beta1.mkDevice (spec_identifier j (slotPaths raws i)) v1beta1.Healthy)
    (slotPaths raws i).

(** The devices of a group whose patterns have the matches [raws]:
    position after position and, at each position, ordinal after
    ordinal. *)
Definition groupDevices (raws : list (list string)) (count : N)
    : list device :=
  concat ((λ i, (λ j, slotDevice raws i j) <$> ordinals count)
            <$> seq 0 (min_list (length <$> raws))).

(** [d] is made of the matches at one position of the patterns of
    [group]. *)
Definition aligned (w : World) (group : list string) (d : device) : Prop :=
  ∃ i, Forall2 (λ pat p, ∃ raw, Glob w pat = Some raw ∧
                                 sortStrings raw !! i = Some p)
         group (paths d).

(** The paths [ps] are made of the matches at one position of the
    patterns of [group], pattern after pattern. *)
Definition resolved (w : World) (group : list string) (ps : list string)
    : Prop :=
  ∃ i, Forall2 (λ pat p, ∃ raw, Glob w pat = Some raw ∧
                                 sortStrings raw !! i = Some p)
         group ps.

(** The devices of the paths [ps] as the specification words them: one
    per ordinal below the count, in order, each Healthy and identified by
    the digest of its own ordinal followed by the paths. *)
Definition instances (count : N) (ps : list string) : list device :=
  (λ j, mkdevice
          (v1beta1.mkDevice
             (hex (sha1.sum (FormatUint j +:+ String.concat "" ps)))
             v1beta1.Healthy)
          ps) <$> ordinals count.

(** ** Notions for the invariants *)

(** What holds of the plugin for specification [spec] whatever happened:
    the specification is the one it was built with, and every entry of
    the table is stored under its own identifier, has the health that
    [GetDeviceState] reports, carries the digest of an ordinal below the
    count followed by its paths, and has one path per pattern of a group
    of the specification. *)
Definition tableInv (spec : DeviceSpec) (gp : GenericPlugin) : Prop :=
  ds gp = spec ∧
  ∀ id d, devices gp !! id = Some d →
    ID d = id ∧
    Health d = GetDeviceState id ∧
    (∃ j, (j < Count spec)%N ∧ id = spec_identifier j (paths d)) ∧
    (∃ group, group ∈ Groups spec ∧ length (paths d) = length group).

(** The state of [gp.mu] after the events [evs], [held] being its state
    before; [None] when [evs] locks the mutex while it is held or unlocks
    it while it is free. *)
Fixpoint mutexAfter (held : bool) (evs : list event) : option bool :=
  match evs with
  | [] => Some held
  | EvLock :: evs' => if held then None else mutexAfter true evs'
  | EvUnlock :: evs' => if held then mutexAfter false evs' else None
  | _ :: evs' => mutexAfter held evs'
  end.

(** The characters of the [%x] verb. *)
Definition lowerHex (c : ascii) : Prop :=
  c ∈ String.list_ascii_of_string "0123456789abcdef".

(** ** Notions for the properties of the watch loop and the mutex *)

(** An operation that starts with the mutex free and, however it ends,
    leaves it free without misusing it. *)
Definition releases {A : Type} (m : M A) : Prop :=
  ∀ gp, mutexAfter false (events (m gp)) = Some false.

(** One pass of the loop, [k] being what it makes of the result of the
    reconciliation. *)
Definition segment (w : World) (k : bool → bool) : M unit :=
  refreshDevices w ≫= λ ok, pushDevices w (k ok);; sleep.

(** What a client of an operation observes: its result, the state it
    leaves and the messages it sent. *)
Definition observed {A : Type} (o : outcome A)
    : result A * GenericPlugin * list v1beta1.ListAndWatchResponse :=
  (value o, final o, sentOf (events o)).

(** The watch protocol as the specification words it, for a
    reconciliation [refresh] and one world per pass: reconcile; an error
    of the reconciliation ends the stream with that error; otherwise, on
    the first pass and whenever the reconciliation did not report
    unchanged, send the whole table, an error of the send ending the
    stream with that error; when the reconciliation reported unchanged on
    a later pass, send nothing; then go on with the next pass.  A stream
    that has ended never resumes. *)
Fixpoint watchSpec (refresh : World → M bool) (first : bool)
    (ws : list World) (gp : GenericPlugin)
    : result () * GenericPlugin * list v1beta1.ListAndWatchResponse :=
  match ws with
  | [] => (Ok (), gp, [])
  | w :: ws' =>
      let o := refresh w gp in
      match value o with
      | Err e => (Err e, final o, [])
      | Panic i n => (Panic i n, final o, [])
      | Ok unchanged =>
          if negb first && unchanged then watchSpec refresh false ws' (final o)
          else
            let res := listResponse w (devices (final o)) in
            match Send w res with
            | Some e => (Err e, final o, [res])
            | None =>
                let '(r, gp', sent) := watchSpec refresh false ws' (final o) in
                (r, gp', res :: sent)
            end
      end
  end.

(** A reconciliation that reconciles as [refreshDevices] does and then
    reports that nothing changed. *)
Definition settled (w : World) : M bool := refreshDevices w;; mret true.

(** A message that reports every device as Healthy. *)
Definition reportsHealthy (res : v1beta1.ListAndWatchResponse) : Prop :=
  Forall (λ dev, v1beta1.Health dev = v1beta1.Healthy)
    (v1beta1.ListDevices res).

(** ** Further example environments *)

(** [serialWorld] when the stream is closed: every send fails. *)
Definition closedWorld : World :=
  mkWorld (Glob serialWorld) (λ _, Some (ErrSend "transport is closing"))
    map_to_list.

(** Two patterns with two matches each, twelve instances per position. *)
Definition spiWorld : World :=
  quietWorld {[ "/dev/spidev*" := Some ["/dev/spidev1"; "/dev/spidev0"];
                "/dev/gpiochip*" :=
                  Some ["/dev/gpiochip0"; "/dev/gpiochip1"] ]}.

Definition spiSpec : DeviceSpec :=
  mkDeviceSpec "spi" [["/dev/spidev*"; "/dev/gpiochip*"]] 12.

(** [videoSpec] with a count of zero. *)
Definition videoSpecZero : DeviceSpec :=
  mkDeviceSpec "video" [["/dev/video*"; "/dev/media*"]] 0.

(** * Properties *)

(** ** The standard library functions on known values *)

Example sha1_empty :
  hex (sha1.sum "") = "da39a3ee5e6b4b0d3255bfef95601890afd80709".
Proof. vm_compute. reflexivity. Qed.

Example sha1_abc :
  hex (sha1.sum "abc") = "a9993e364706816aba3e25717850c26c9cd0d89d".
Proof. vm_compute. reflexivity. Qed.

Example sha1_two_blocks :
  hex (sha1.sum "abcdbcdecdefdefgefghfghighijhijkijkljklmklmnlmnomnopnopq")
  = "84983e441c3bd26ebaae4aa1f95129e5e54670f1".
Proof. vm_compute. reflexivity. Qed.

Example sha1_55_bytes :
  hex (sha1.sum "aaaaaaaaaaaaaaaaaaaaaaaaaaaaaaaaaaaaaaaaaaaaaaaaaaaaaaa")
  = "c1c8bbdc22796e28c0e15163d20899b65621d65a".
Proof. vm_compute. reflexivity. Qed.

Example sha1_64_bytes :
  hex (sha1.sum
         "aaaaaaaaaaaaaaaaaaaaaaaaaaaaaaaaaaaaaaaaaaaaaaaaaaaaaaaaaaaaaaaa")
  = "0098ba824b5c16427bd7a1122a5a442a25ec644d".
Proof. vm_compute. reflexivity. Qed.

Example FormatUint_values :
  FormatUint 0 = "0" ∧ FormatUint 7 = "7" ∧ FormatUint 1234 = "1234".
Proof. vm_compute. done. Qed.

Example sortStrings_bytewise :
  sortStrings ["/dev/b"; "/dev/a10"; "/dev/a1"; "/dev/B"]
  = ["/dev/B"; "/dev/a1"; "/dev/a10"; "/dev/b"].
Proof. vm_compute. reflexivity. Qed.

(** ** Running operations *)

Lemma run_bind {A B : Type} (m : M A) (f : A → M B) gp :
  (m ≫= f) gp =
  match value (m gp) with
  | Ok a =>
      mkOutcome (value (f a (final (m gp)))) (final (f a (final (m gp))))
        (events (m gp) ++ events (f a (final (m gp))))
  | Err e => mkOutcome (Err e) (final (m gp)) (events (m gp))
  | Panic i n => mkOutcome (Panic i n) (final (m gp)) (events (m gp))
  end.
Proof. reflexivity. Qed.

Lemma run_forM_cons {A S : Type} (f : S → A → M S) s x l :
  forM f s (x :: l) = (f s x ≫= λ s', forM f s' l).
Proof. reflexivity. Qed.

Lemma run_withLock {A : Type} (body : M A) gp :
  withLock body gp =
  mkOutcome (value (body gp)) (final (body gp))
    (EvLock :: events (body gp) ++ [EvUnlock]).
Proof. reflexivity. Qed.

Lemma ListAndWatch_run w0 ws :
  ListAndWatch w0 ws =
  (ListAndWatch_start w0;; forM (λ _ w, ListAndWatch_tick w) () ws).
Proof. reflexivity. Qed.

Lemma set_devices_id gp : set_devices (devices gp) gp = gp.
Proof. by destruct gp. Qed.

Lemma outcome_eta {A : Type} (o : outcome A) :
  o = mkOutcome (value o) (final o) (events o).
Proof. by destruct o. Qed.

(** ** Discovery *)

Lemma append_String (x : ascii) (a b : string) :
  String x a +:+ b = String x (a +:+ b).
Proof. reflexivity. Qed.

Lemma append_assoc (a b c : string) : (a +:+ b) +:+ c = a +:+ (b +:+ c).
Proof.
  induction a as [|x a IH]; [done|]. by rewrite !append_String, IH.
Qed.

Lemma append_empty_r (a : string) : a +:+ "" = a.
Proof. induction a as [|x a IH]; [done|]. by rewrite append_String, IH. Qed.

Lemma concat_cons (p : string) (ps : list string) :
  String.concat "" (p :: ps) = p +:+ String.concat "" ps.
Proof. destruct ps; simpl; [by rewrite append_empty_r|done]. Qed.

Lemma mbind_Ok_inv {A B : Type} (r : result A) (f : A → result B) b :
  r ≫= f = Ok b → ∃ a, r = Ok a ∧ f a = Ok b.
Proof. destruct r; [eauto|done..]. Qed.

(** The loop of lines 121-124 over the patterns [a, a+1, ..., a+n-1]:
    the paths [ps] it reads are written to the hash and stored in
    [d.paths] at the same positions. *)
Lemma newDevice_fill gpaths i n :
  ∀ a h d h' d',
    a + n = length (paths d) →
    foldlR (λ '(h, d) k,
        p ← index2 gpaths k i;
        Ok (sha1.Write h p, set_paths (<[k := p]> (paths d)) d))
      (h, d) (seq a n) = Ok (h', d') →
    ∃ ps, length ps = n ∧
          h' = h +:+ String.concat "" ps ∧
          paths d' = take a (paths d) ++ ps ∧
          Device d' = Device d ∧
          ∀ k p, ps !! k = Some p → index2 gpaths (a + k) i = Ok p.
Proof.
  induction n as [|n IH]; intros a h d h' d' Hlen; simpl.
  - intros [= <- <-]. exists []. rewrite append_empty_r, app_nil_r.
    repeat split; [|done]. rewrite firstn_all2; [done|lia].
  - intros Hrun. apply mbind_Ok_inv in Hrun as ([h1 d1] & Hstep & Hrun).
    apply mbind_Ok_inv in Hstep as (p & Hp & [= <- <-]).
    apply IH in Hrun as (ps & Hps & -> & Hpaths & Hdev & Hidx);
      [|cbn [set_paths paths]; rewrite length_insert; lia].
    exists (p :: ps). cbn [set_paths paths Device] in *.
    rewrite concat_cons. unfold sha1.Write. rewrite append_assoc.
    repeat split; [simpl; lia|..|done|].
    + rewrite Hpaths. erewrite take_S_r;
        [|apply list_lookup_insert_eq; lia].
      rewrite take_insert_ge by lia. by rewrite <- app_assoc.
    + intros [|k] q; simpl.
      * intros [= <-]. by rewrite Nat.add_0_r.
      * intros Hq. rewrite <- Nat.add_succ_comm. by apply Hidx.
Qed.

(** A device that [newDevice] returns is Healthy, has one path per
    pattern, each read at slot [i] of the matches of its pattern, and its
    identifier follows the specification. *)
Lemma newDevice_Ok group gpaths i j d :
  newDevice group gpaths i j = Ok d →
  Health d = v1beta1.Healthy ∧
  ID d = spec_identifier j (paths d) ∧
  length (paths d) = length group ∧
  ∀ k p, paths d !! k = Some p → index2 gpaths k i = Ok p.
Proof.
  unfold newDevice. intros Hrun.
  apply mbind_Ok_inv in Hrun as ([h1 d1] & Hfill & [= <-]).
  apply newDevice_fill in Hfill as (ps & Hps & -> & Hpaths & Hdev & Hidx);
    [|cbn [paths]; by rewrite length_replicate].
  cbn [paths Device] in Hpaths, Hdev. rewrite take_0 in Hpaths.
  cbn [app] in Hpaths.
  repeat split.
  - unfold set_ID, Health. by rewrite Hdev.
  - unfold ID, set_ID, spec_identifier. simpl. by rewrite Hpaths.
  - simpl. congruence.
  - simpl. rewrite Hpaths. intros k p Hk. by apply Hidx.
Qed.

Lemma elem_of_ordinals j count : j ∈ ordinals count → (j < count)%N.
Proof.
  unfold ordinals. intros (k & -> & Hk)%list_elem_of_fmap.
  apply elem_of_seq in Hk. lia.
Qed.

(** A loop that only appends to its accumulator: what holds of every
    element appended by the body holds of everything the loop appends. *)
Lemma foldlR_appends {A B : Type} (P : B → Prop)
    (f : list B → A → result (list B)) (l : list A) :
  (∀ acc x acc', x ∈ l → f acc x = Ok acc' →
     ∃ new, acc' = acc ++ new ∧ Forall P new) →
  ∀ acc acc', foldlR f acc l = Ok acc' →
     ∃ new, acc' = acc ++ new ∧ Forall P new.
Proof.
  induction l as [|x l IH]; intros Hf acc acc'; simpl.
  - intros [= <-]. exists []. by rewrite app_nil_r.
  - intros (acc1 & Hx & Hl)%mbind_Ok_inv.
    destruct (Hf acc x acc1) as (new1 & -> & Hnew1); [left|done|].
    assert (Hf' : ∀ a y a', y ∈ l → f a y = Ok a' →
              ∃ new, a' = a ++ new ∧ Forall P new).
    { intros a y a' Hy. apply Hf. by right. }
    destruct (IH Hf' _ _ Hl) as (new2 & -> & Hnew2).
    exists (new1 ++ new2). split; [by rewrite app_assoc|by apply Forall_app].
Qed.

Lemma discoverGroup_Ok w count devs group devs' :
  discoverGroup w count devs group = Ok devs' →
  ∃ new, devs' = devs ++ new ∧ Forall (discovered count) new.
Proof.
  unfold discoverGroup. intros ([gpaths len] & _ & Hrun)%mbind_Ok_inv.
  revert Hrun. apply foldlR_appends. intros acc i acc' _.
  apply foldlR_appends. clear acc acc'. intros acc j acc' Hj.
  intros (d & Hd & [= <-])%mbind_Ok_inv. exists [d]. split; [done|].
  apply newDevice_Ok in Hd as (Hh & Hid & _). apply elem_of_ordinals in Hj.
  repeat constructor; [done|]. by exists j.
Qed.

Lemma discover_Ok w spec devs :
  discover w spec = Ok devs → Forall (discovered (Count spec)) devs.
Proof.
  unfold discover. intros Hrun.
  eapply foldlR_appends in Hrun as (new & -> & Hnew); [done|].
  intros acc group acc' _. apply discoverGroup_Ok.
Qed.

(** *** Errors of discovery *)

Lemma foldlR_Err_inv {A S : Type} (f : S → A → result S) (l : list A) :
  ∀ s e, foldlR f s l = Err e → ∃ s' x, x ∈ l ∧ f s' x = Err e.
Proof.
  induction l as [|x l IH]; intros s e; simpl; [done|].
  destruct (f s x) as [s1|e1|i n] eqn:Hx; cbn [mbind result_bind]; [| |done].
  - intros (s' & y & Hy & Hf)%IH. exists s', y. split; [by right|done].
  - intros [= <-]. exists s, x. split; [left|done].
Qed.

Lemma index2_not_Err gpaths k i e : index2 gpaths k i ≠ Err e.
Proof.
  unfold index2. destruct (gpaths !! k) as [ms|]; [|done].
  by destruct (ms !! i).
Qed.

(** Building a device never returns an error: it succeeds or panics. *)
Lemma newDevice_not_Err group gpaths i j e :
  newDevice group gpaths i j ≠ Err e.
Proof.
  unfold newDevice.
  match goal with |- context [foldlR ?f ?s ?l] =>
    destruct (foldlR f s l) as [[h d]|e'|a n] eqn:Hfill end;
    cbn [mbind result_bind]; [done| |done].
  apply foldlR_Err_inv in Hfill as ([h d] & k & _ & Hstep).
  destruct (index2 gpaths k i) as [p|e1|a n] eqn:Hidx;
    cbn [mbind result_bind] in Hstep; [done| |done].
  by apply index2_not_Err in Hidx.
Qed.

(** The only error of lines 99-110 is that of a malformed pattern. *)
Lemma globGroup_Err w group : ∀ i gpaths len e,
  globGroup w i group gpaths len = Err e →
  e = ErrBadPattern ∧ ∃ pat, pat ∈ group ∧ Glob w pat = None.
Proof.
  induction group as [|pat group IH]; intros i gpaths len e; simpl; [done|].
  destruct (Glob w pat) as [raw|] eqn:Hpat.
  - intros (-> & pat' & Hin & Hnone)%IH. split; [done|].
    exists pat'. split; [by right|done].
  - intros [= <-]. split; [done|]. exists pat. split; [left|done].
Qed.

(** A malformed pattern anywhere in the group makes lines 99-110 fail. *)
Lemma globGroup_malformed w group pat : ∀ i gpaths len,
  pat ∈ group → Glob w pat = None →
  globGroup w i group gpaths len = Err ErrBadPattern.
Proof.
  induction group as [|pat' group IH]; intros i gpaths len Hin Hnone.
  - by apply elem_of_nil in Hin.
  - simpl. destruct (Glob w pat') as [raw|] eqn:Hpat'; [|done].
    apply elem_of_cons in Hin as [->|Hin]; [congruence|]. by apply IH.
Qed.

Lemma discoverGroup_Err w count devs group e :
  discoverGroup w count devs group = Err e →
  e = ErrBadPattern ∧ ∃ pat, pat ∈ group ∧ Glob w pat = None.
Proof.
  unfold discoverGroup.
  destruct (globGroup w 0 group _ 0) as [[gpaths len]|e'|a n] eqn:Hglob;
    cbn [mbind result_bind]; [| |done].
  - intros (acc & i & _ & Hi)%foldlR_Err_inv.
    apply foldlR_Err_inv in Hi as (acc' & j & _ & Hj).
    destruct (newDevice group gpaths i j) as [d|e1|a n] eqn:Hnew;
      cbn [mbind result_bind] in Hj; [done| |done].
    by apply newDevice_not_Err in Hnew.
  - intros [= <-]. by apply globGroup_Err in Hglob.
Qed.

(** [discover] returns an error only for a malformed pattern. *)
Lemma discover_Err w spec e :
  discover w spec = Err e →
  e = ErrBadPattern ∧
  ∃ group pat, group ∈ Groups spec ∧ pat ∈ group ∧ Glob w pat = None.
Proof.
  unfold discover. intros (acc & group & Hin & Hgroup)%foldlR_Err_inv.
  apply discoverGroup_Err in Hgroup as (-> & pat & Hpat & Hnone).
  split; [done|]. by exists group, pat.
Qed.

(** A malformed pattern in the first group makes [discover] fail. *)
Lemma discover_malformed w spec group rest pat :
  Groups spec = group :: rest → pat ∈ group → Glob w pat = None →
  discover w spec = Err ErrBadPattern.
Proof.
  intros Hgroups Hin Hnone. unfold discover. rewrite Hgroups. cbn [foldlR].
  unfold discoverGroup.
  by rewrite (globGroup_malformed w group pat _ _ _ Hin Hnone).
Qed.

(** ** Groups whose patterns all match *)

Lemma length_sortStrings l : length (sortStrings l) = length l.
Proof. unfold sortStrings. by rewrite merge_sort_Permutation. Qed.

(** When every pattern is well formed, lines 99-110 fill [paths] with the
    sorted matches and fold [shorter] over the match counts. *)
Lemma globGroup_run w group : ∀ raws i (gpaths : list (list string)) len,
  Forall2 (λ pat raw, Glob w pat = Some raw) group raws →
  (i + length group ≤ length gpaths)%nat →
  globGroup w i group gpaths len =
  Ok (take i gpaths ++ (sortStrings <$> raws)
        ++ drop (i + length group) gpaths,
      foldl shorter len (length <$> raws)).
Proof.
  induction group as [|pat group IH]; intros raws i gpaths len Hall Hlen.
  - apply Forall2_nil_inv_l in Hall as ->. simpl.
    by rewrite Nat.add_0_r, take_drop.
  - apply Forall2_cons_inv_l in Hall as (raw & raws' & Hraw & Hall & ->).
    simpl in *. rewrite Hraw.
    rewrite (IH raws' (S i)); [|done|rewrite length_insert; lia].
    rewrite length_sortStrings. f_equal. f_equal.
    erewrite take_S_r; [|apply list_lookup_insert_eq; lia].
    rewrite take_insert_ge by lia. rewrite <- app_assoc. simpl.
    rewrite drop_insert_lt by lia. by rewrite Nat.add_succ_r.
Qed.

Global Instance string_le_total : Total string_le.
Proof.
  intros a b. unfold string_le.
  destruct (String.leb_total a b) as [-> | ->]; [by left|by right].
Qed.

(** X7.  The path resolver: when every pattern of a group is well
    formed, the slice [paths] holds, for each pattern in order, the
    matches of [filepath.Glob] rearranged in increasing order. *)
Theorem globGroup_sorted w group raws gpaths len :
  Forall2 (λ pat raw, Glob w pat = Some raw) group raws →
  globGroup w 0 group (replicate (length group) []) 0 = Ok (gpaths, len) →
  Forall2 (λ raw ms, Sorted string_le ms ∧ ms ≡ₚ raw) raws gpaths.
Proof.
  intros Hall. rewrite (globGroup_run w group raws 0 _ _ Hall)
    by (rewrite length_replicate; lia).
  rewrite take_0, drop_ge by (rewrite length_replicate; lia).
  rewrite app_nil_r. intros [= <- _]. cbn [app].
  apply Forall2_fmap_r, Forall_Forall2_diag, Forall_forall. intros raw _.
  split; [apply Sorted_merge_sort, _|apply merge_sort_Permutation].
Qed.

Lemma shorter_positive len n : 0 < len → 0 < n → shorter len n = len `min` n.
Proof.
  intros Hlen Hn. unfold shorter.
  destruct (Nat.eqb_spec len 0); [lia|]. simpl.
  destruct (Nat.ltb_spec n len); lia.
Qed.

Lemma foldl_shorter_positive counts : ∀ len,
  0 < len → Forall (λ n, 0 < n) counts →
  foldl shorter len counts = foldl Nat.min len counts.
Proof.
  induction counts as [|n counts IH]; intros len Hlen Hall; [done|].
  apply Forall_cons in Hall as [Hn Hall]. simpl.
  rewrite shorter_positive by done. apply IH; [lia|done].
Qed.

(** With no empty match list the computed length is the minimum. *)
Lemma shortest_positive counts :
  Forall (λ n, 0 < n) counts → foldl shorter 0 counts = min_list counts.
Proof.
  destruct counts as [|n counts]; [done|].
  intros [Hn Hall]%Forall_cons. simpl.
  by apply foldl_shorter_positive.
Qed.

Lemma foldl_min_le counts : ∀ len,
  foldl Nat.min len counts ≤ len ∧
  Forall (λ n, foldl Nat.min len counts ≤ n) counts.
Proof.
  induction counts as [|n counts IH]; intros len; simpl; [by split|].
  destruct (IH (len `min` n)) as [Hle Hall]. split; [lia|].
  constructor; [lia|done].
Qed.

Lemma min_list_le counts : Forall (λ n, min_list counts ≤ n) counts.
Proof.
  destruct counts as [|n counts]; [done|]. simpl.
  destruct (foldl_min_le counts n). by constructor.
Qed.

(** The loop of lines 121-124 succeeds when slot [i] exists in the matches
    of every pattern. *)
Lemma newDevice_fill_total gpaths i n :
  ∀ a h d,
    a + n ≤ length gpaths →
    Forall (λ ms, i < length ms) gpaths →
    ∃ hd, foldlR (λ '(h, d) k,
              p ← index2 gpaths k i;
              Ok (sha1.Write h p, set_paths (<[k := p]> (paths d)) d))
            (h, d) (seq a n) = Ok hd.
Proof.
  induction n as [|n IH]; intros a h d Hlen Hall; simpl; [eauto|].
  destruct (lookup_lt_is_Some_2 gpaths a) as [ms Hms]; [lia|].
  destruct (lookup_lt_is_Some_2 ms i) as [p Hp].
  { rewrite Forall_forall in Hall. apply Hall.
    by eapply list_elem_of_lookup_2. }
  assert (Hidx : index2 gpaths a i = Ok p)
    by (unfold index2; by rewrite Hms, Hp).
  rewrite Hidx. cbn [mbind result_bind]. apply IH; [lia|done].
Qed.

Lemma newDevice_total group gpaths i j :
  length gpaths = length group →
  Forall (λ ms, i < length ms) gpaths →
  ∃ d, newDevice group gpaths i j = Ok d.
Proof.
  intros Hlen Hall. unfold newDevice.
  edestruct (newDevice_fill_total gpaths i (length group) 0) as [[h d] ->];
    [lia|done|].
  cbn [mbind result_bind]. eauto.
Qed.

(** A loop whose body always appends [c] elements appends [c] elements
    per iteration. *)
Lemma foldlR_appends_count {A B : Type} (c : nat)
    (f : list B → A → result (list B)) (l : list A) :
  (∀ acc x, x ∈ l → ∃ new, f acc x = Ok (acc ++ new) ∧ length new = c) →
  ∀ acc, ∃ new, foldlR f acc l = Ok (acc ++ new) ∧
                length new = length l * c.
Proof.
  induction l as [|x l IH]; intros Hf acc; simpl.
  - exists []. by rewrite app_nil_r.
  - destruct (Hf acc x) as (new1 & -> & Hnew1); [left|].
    cbn [mbind result_bind].
    destruct (IH (λ a y Hy, Hf a y (list_elem_of_further _ _ _ Hy))
                 (acc ++ new1)) as (new2 & -> & Hnew2).
    exists (new1 ++ new2). rewrite app_assoc, length_app. split; [done|lia].
Qed.

Lemma length_ordinals count : length (ordinals count) = N.to_nat count.
Proof. unfold ordinals. by rewrite length_fmap, length_seq. Qed.

(** X1.  The truncation policy on groups without an empty match list:
    when every pattern of a group is well formed and matches at least one
    path, the group contributes the minimum match count times the
    configured count, and no index is out of range. *)
Theorem discoverGroup_truncation w count devs group raws :
  Forall2 (λ pat raw, Glob w pat = Some raw ∧ raw ≠ []) group raws →
  ∃ new,
    discoverGroup w count devs group = Ok (devs ++ new) ∧
    length new = min_list (length <$> raws) * N.to_nat count.
Proof.
  intros Hall. unfold discoverGroup.
  assert (Hlen : length raws = length group)
    by (symmetry; by eapply Forall2_length).
  rewrite (globGroup_run w group raws 0).
  2: { eapply Forall2_impl; [exact Hall|]. by intros ?? [? _]. }
  2: { rewrite length_replicate. lia. }
  rewrite take_0, drop_ge by (rewrite length_replicate; lia).
  rewrite app_nil_r. cbn [app mbind result_bind].
  rewrite shortest_positive.
  2: { apply Forall_fmap, Forall_forall. intros raw Hraw.
       apply list_elem_of_lookup in Hraw as [k Hk].
       destruct (Forall2_lookup_r _ _ _ _ _ Hall Hk) as (pat & _ & _ & Hne).
       destruct raw; [done|simpl; lia]. }
  set (len := min_list (length <$> raws)).
  replace (len * N.to_nat count)
    with (length (seq 0 len) * N.to_nat count) by (by rewrite length_seq).
  apply foldlR_appends_count. intros acc i Hi%elem_of_seq.
  rewrite <- length_ordinals.
  replace (length (ordinals count)) with (length (ordinals count) * 1) by lia.
  apply foldlR_appends_count. intros acc' j _.
  destruct (newDevice_total group (sortStrings <$> raws) i j) as [d ->].
  - by rewrite length_fmap.
  - apply Forall_fmap, Forall_forall. intros raw Hraw. simpl.
    rewrite length_sortStrings.
    pose proof (min_list_le (length <$> raws)) as Hmin.
    rewrite Forall_fmap, Forall_forall in Hmin. specialize (Hmin raw Hraw).
    simpl in Hmin. fold len in Hmin. lia.
  - exists [d]. by cbn.
Qed.

(** ** The shortest length of a group *)

(** C2 (defect in the code).  The patterns of the group match 0 and 1
    paths.  The shortest length is 0 and the group should contribute no
    device; lines 107-109 compute the length 1, because a length of 0 is
    taken for "not set yet", and [discover] produces no device list at
    all: it panics on [paths[0][0]]. *)
Theorem discover_length_not_minimum :
  globGroup videoWorld 0 ["/dev/video*"; "/dev/media*"] (replicate 2 []) 0
    = Ok ([[]; ["/dev/media0"]], 1) ∧
  min_list (length <$> [[]; ["/dev/media0"]]) = 0 ∧
  discover videoWorld videoSpec = Panic 0 0.
Proof. repeat split; vm_compute; reflexivity. Qed.

(** C3 (defect in the code).  The patterns of the group match 2, 0 and
    3 paths: the length goes 2, 0, 3, and the first device reads
    [paths[1][0]] in an empty slice: index out of range [0] with
    length 0. *)
Theorem discover_index_out_of_range :
  globGroup driWorld 0 ["/dev/dri/card*"; "/dev/dri/renderD*"; "/dev/fb*"]
    (replicate 3 []) 0
    = Ok ([["/dev/dri/card0"; "/dev/dri/card1"]; [];
           ["/dev/fb0"; "/dev/fb1"; "/dev/fb2"]], 3) ∧
  index2 [["/dev/dri/card0"; "/dev/dri/card1"]; [];
          ["/dev/fb0"; "/dev/fb1"; "/dev/fb2"]] 1 0 = Panic 0 0 ∧
  discover driWorld driSpec = Panic 0 0.
Proof. repeat split; vm_compute; reflexivity. Qed.

(** ** Reconciliation *)

(** The loop of lines 153-158 stores every candidate and leaves [equal]
    at [false], the value it is declared with. *)
Lemma refresh_loop (old : gmap string device) devs gp :
  forM (λ (equal : bool) d,
          storeDevice (ID d) d;;
          mret (match old !! ID d with None => false | Some _ => equal end))
       false devs gp
  = mkOutcome (Ok false) (set_devices (tableOf (devices gp) devs) gp)
      (replicate (length devs) EvWriteDevices).
Proof.
  revert gp. induction devs as [|d devs IH]; intros gp.
  - simpl. unfold mret, M_ret. by rewrite set_devices_id.
  - rewrite run_forM_cons, !run_bind. cbn [storeDevice value final events].
    replace (match old !! ID d with Some _ | _ => false end) with false
      by (by destruct (old !! ID d)).
    cbn [mret M_ret value final events]. rewrite IH. by destruct gp.
Qed.

(** A successful discovery: the gauge is set, the table is replaced under
    the lock, and the result is [false]. *)
Lemma refreshDevices_run w gp devs :
  discover w (ds gp) = Ok devs →
  refreshDevices w gp =
  mkOutcome (Ok false)
    (set_devices (tableOf ∅ devs) (set_deviceGauge (length devs) gp))
    (EvLock :: EvReadDevices :: EvWriteDevices
       :: replicate (length devs) EvWriteDevices ++ [EvUnlock]).
Proof.
  intros Hd. unfold refreshDevices. rewrite Hd.
  rewrite run_bind. cbn [modify value final events].
  rewrite run_withLock, !run_bind. cbn [readDevices writeDevices value final events].
  rewrite !run_bind, refresh_loop. cbn [value final events negb mret M_ret].
  f_equal. by rewrite app_nil_r.
Qed.

Lemma refreshDevices_Err w gp e :
  discover w (ds gp) = Err e →
  refreshDevices w gp = mkOutcome (Err (ErrDiscover e)) gp [].
Proof. intros Hd. unfold refreshDevices. by rewrite Hd. Qed.

Lemma refreshDevices_Panic w gp i n :
  discover w (ds gp) = Panic i n →
  refreshDevices w gp = mkOutcome (Panic i n) gp [].
Proof. intros Hd. unfold refreshDevices. by rewrite Hd. Qed.

(** Whatever the previous table and the file system, a refresh that
    succeeds reports [false]. *)
Lemma refreshDevices_value w gp :
  value (refreshDevices w gp) =
  match discover w (ds gp) with
  | Ok _ => Ok false
  | Err e => Err (ErrDiscover e)
  | Panic i n => Panic i n
  end.
Proof.
  destruct (discover w (ds gp)) as [devs|e|i n] eqn:Hd.
  - by rewrite (refreshDevices_run _ _ _ Hd).
  - by rewrite (refreshDevices_Err _ _ _ Hd).
  - by rewrite (refreshDevices_Panic _ _ _ _ Hd).
Qed.

Lemma dom_tableOf m devs : dom (tableOf m devs) = idSet devs ∪ dom m.
Proof.
  revert m. induction devs as [|d devs IH]; intros m; unfold idSet in *; simpl.
  - set_solver.
  - unfold tableOf in *. simpl. rewrite IH, dom_insert_L. set_solver.
Qed.

(** C1 (defect in the code).  The plugin has reconciled once
    with two serial adapters present; nothing changes and it reconciles
    again.  The candidate list has exactly the identifiers of the previous
    table, and [refreshDevices] still answers [false]: [equal] is declared
    [false] at line 150 and never set to [true], so line 160 always
    returns. *)
Theorem refreshDevices_same_identifiers_false :
  devices serialPlugin = {[ ID usb0 := usb0; ID usb1 := usb1 ]} ∧
  discover serialWorld (ds serialPlugin) = Ok [usb0; usb1] ∧
  idSet [usb0; usb1] = dom (devices serialPlugin) ∧
  value (refreshDevices serialWorld serialPlugin) = Ok false.
Proof.
  assert (Hd : discover serialWorld serialSpec = Ok [usb0; usb1])
    by (vm_compute; reflexivity).
  assert (Hp : serialPlugin =
    set_devices (tableOf ∅ [usb0; usb1])
      (set_deviceGauge 2 (NewGenericPlugin serialSpec))).
  { unfold serialPlugin.
    by rewrite (refreshDevices_run serialWorld (NewGenericPlugin serialSpec)
                  [usb0; usb1] Hd). }
  split; [vm_compute; reflexivity|]. split; [by rewrite Hp|]. split.
  - rewrite Hp. cbn [set_devices devices]. rewrite dom_tableOf. set_solver.
  - rewrite refreshDevices_value, Hp.
    cbn [set_devices set_deviceGauge ds NewGenericPlugin]. by rewrite Hd.
Qed.

(** C5.  When discovery returns an error, some pattern of the
    specification is malformed, and [refreshDevices] returns an error that
    wraps the one of discovery and leaves the plugin as it was: the table,
    the gauge and the counter are untouched and no event happens.  When
    discovery succeeds the table is replaced by the candidates, so its
    identifiers are exactly those of this discovery. *)
Theorem refreshDevices_failed_discovery_keeps_table w gp :
  match discover w (ds gp) with
  | Err e =>
      (∃ group pat,
         group ∈ Groups (ds gp) ∧ pat ∈ group ∧ Glob w pat = None) ∧
      e = ErrBadPattern ∧
      refreshDevices w gp = mkOutcome (Err (ErrDiscover e)) gp []
  | Ok devs =>
      devices (final (refreshDevices w gp)) = tableOf ∅ devs ∧
      dom (devices (final (refreshDevices w gp))) = idSet devs
  | Panic _ _ => final (refreshDevices w gp) = gp
  end.
Proof.
  destruct (discover w (ds gp)) as [devs|e|i n] eqn:Hd.
  - rewrite (refreshDevices_run _ _ _ Hd). cbn [final set_devices devices].
    split; [done|]. rewrite dom_tableOf. set_solver.
  - destruct (discover_Err _ _ _ Hd) as [-> Hpat].
    repeat split; [done|]. by apply refreshDevices_Err.
  - by rewrite (refreshDevices_Panic _ _ _ _ Hd).
Qed.

(** ** Allocation *)

Lemma appendBindings_app resp dev :
  appendBindings resp dev = resp ++ bindingsOf dev.
Proof.
  unfold appendBindings, bindingsOf. revert resp.
  induction (paths dev) as [|p ps IH]; intros resp; simpl.
  - by rewrite app_nil_r.
  - by rewrite IH, <- app_assoc.
Qed.

Lemma allocateDevice_run resp id gp :
  allocateDevice resp id gp =
  mkOutcome
    (match devices gp !! id with
     | None => Err (ErrNotExist id)
     | Some dev =>
         if decide (Health dev ≠ v1beta1.Healthy) then Err (ErrNotHealthy id)
         else Ok (resp ++ bindingsOf dev)
     end) gp [EvReadDevices].
Proof.
  unfold allocateDevice. rewrite run_bind. cbn [readDevices value final events].
  destruct (devices gp !! id) as [dev|]; [|done].
  destruct (decide (Health dev ≠ v1beta1.Healthy)); [done|].
  by rewrite appendBindings_app.
Qed.

Lemma allocatable_or_rejected m id :
  (∃ dev, allocatable m id dev) ∨ (∃ e, rejected m id e).
Proof.
  unfold allocatable, rejected. destruct (m !! id) as [dev|] eqn:Hl.
  - destruct (decide (Health dev = v1beta1.Healthy)); [left|right]; eauto 8.
  - right. eauto.
Qed.

Lemma allocatable_not_rejected m id dev e :
  allocatable m id dev → rejected m id e → False.
Proof. intros [? ?] [[? ?]|(? & ? & ? & ?)]; congruence. Qed.

(** The loop over the identifiers of one container request: it changes
    nothing in the plugin, only reads the table, and either binds every
    identifier or stops at the first one it rejects. *)
Lemma allocate_ids_run ids resp gp :
  let o := forM allocateDevice resp ids gp in
  final o = gp ∧ Forall (λ ev, ev = EvReadDevices) (events o) ∧
  match value o with
  | Ok resp' =>
      ∃ devs, Forall2 (allocatable (devices gp)) ids devs ∧
              resp' = resp ++ concat (bindingsOf <$> devs)
  | Err e => ∃ id, id ∈ ids ∧ rejected (devices gp) id e
  | Panic _ _ => False
  end.
Proof.
  revert resp. induction ids as [|id ids IH]; intros resp; simpl.
  - repeat split; [constructor|]. exists []. split; [constructor|].
    by rewrite app_nil_r.
  - rewrite run_bind, allocateDevice_run. cbn [value final events].
    destruct (devices gp !! id) as [dev|] eqn:Hl.
    + destruct (decide (Health dev ≠ v1beta1.Healthy)) as [Hh|Hh].
      * cbn [value final events]. repeat split; [by repeat constructor|].
        exists id. split; [left|]. right. eauto.
      * cbn [value final events].
        destruct (IH (resp ++ bindingsOf dev)) as (Hf & Hev & Hv).
        repeat split; [done|by constructor|].
        destruct (value (forM allocateDevice (resp ++ bindingsOf dev) ids gp))
          as [resp'|e|i n]; [| |done].
        -- destruct Hv as (devs & Hdevs & ->). exists (dev :: devs). split.
           ++ constructor; [|done]. split; [done|].
              by destruct (decide (Health dev = v1beta1.Healthy)).
           ++ simpl. by rewrite <- app_assoc.
        -- destruct Hv as (id' & Hin & Hrej). exists id'. split; [by right|done].
    + cbn [value final events]. repeat split; [by repeat constructor|].
      exists id. split; [left|]. left. eauto.
Qed.

Lemma allocate_requests_run reqs res gp :
  let o := allocateRequests res reqs gp in
  final o = gp ∧ Forall (λ ev, ev = EvReadDevices) (events o) ∧
  match value o with
  | Ok res' =>
      ∃ resps, res' = res ++ resps ∧ Forall2 (answers (devices gp)) reqs resps
  | Err e =>
      ∃ r id, r ∈ reqs ∧ id ∈ v1beta1.DevicesIDs r ∧
              rejected (devices gp) id e
  | Panic _ _ => False
  end.
Proof.
  unfold allocateRequests.
  revert res. induction reqs as [|r reqs IH]; intros res; simpl.
  - repeat split; [constructor|]. exists []. split; [|constructor].
    by rewrite app_nil_r.
  - rewrite !run_bind.
    destruct (allocate_ids_run (v1beta1.DevicesIDs r) [] gp) as (Hf & Hev & Hv).
    destruct (value (forM allocateDevice [] (v1beta1.DevicesIDs r) gp))
      as [resp|e|i n]; [| |done]; cbn [value final events mret M_ret].
    + rewrite Hf, app_nil_r.
      destruct (IH (res ++ [v1beta1.mkContainerAllocateResponse resp]))
        as (Hf' & Hev' & Hv').
      repeat split; [done|by apply Forall_app|].
      match goal with |- context [value ?o] => destruct (value o) as [res'|e|i n] end;
        [| |done].
      * destruct Hv' as (resps & -> & Hresps).
        exists (v1beta1.mkContainerAllocateResponse resp :: resps).
        split; [by rewrite <- app_assoc|]. constructor; [|done].
        destruct Hv as (devs & Hdevs & ->). by exists devs.
      * destruct Hv' as (r' & id & Hr & Hid & Hrej). exists r', id.
        split; [by right|done].
    + repeat split; [done|done|].
      destruct Hv as (id & Hid & Hrej). exists r, id. split; [left|done].
Qed.

(** [Allocate] as a whole: the loop runs between [Lock] and the deferred
    [Unlock]; the counter moves only when the loop succeeded. *)
Lemma Allocate_run req gp :
  let o := allocateRequests [] (v1beta1.ContainerRequests req) gp in
  Allocate req gp =
  mkOutcome
    (match value o with
     | Ok res => Ok (v1beta1.mkAllocateResponse res)
     | Err e => Err e
     | Panic i n => Panic i n
     end)
    (match value o with
     | Ok res => add_allocationsCounter (length res) gp
     | _ => gp
     end)
    (EvLock :: events o ++ [EvUnlock]).
Proof.
  destruct (allocate_requests_run (v1beta1.ContainerRequests req) [] gp)
    as (Hf & _ & _).
  unfold Allocate. rewrite run_withLock, run_bind. cbn zeta.
  destruct (value (allocateRequests [] (v1beta1.ContainerRequests req) gp))
    as [res|e|i n]; cbn [value final events]; rewrite ?Hf; [|done..].
  rewrite run_bind. cbn [modify mret M_ret value final events].
  by rewrite !app_nil_r.
Qed.

(** C4.  If some requested identifier, in any container request, is
    missing from the table or names a device that is not Healthy, then
    [Allocate] returns an error and no response; the error names a
    requested identifier that the table rejects, and the plugin is left
    exactly as it was, so the allocations counter has not moved. *)
Theorem Allocate_atomic req gp r id :
  r ∈ v1beta1.ContainerRequests req →
  id ∈ v1beta1.DevicesIDs r →
  (devices gp !! id = None ∨
   ∃ dev, devices gp !! id = Some dev ∧ Health dev ≠ v1beta1.Healthy) →
  ∃ r' id' e,
    r' ∈ v1beta1.ContainerRequests req ∧ id' ∈ v1beta1.DevicesIDs r' ∧
    rejected (devices gp) id' e ∧
    value (Allocate req gp) = Err e ∧
    final (Allocate req gp) = gp ∧
    allocationsCounter (final (Allocate req gp)) = allocationsCounter gp.
Proof.
  intros Hr Hid Hbad.
  assert (Hrej : ∃ e0, rejected (devices gp) id e0).
  { destruct Hbad as [Hnone|(dev & Hdev & Hh)]; eexists; [by left|].
    right. eauto. }
  destruct Hrej as [e0 Hrej].
  destruct (allocate_requests_run (v1beta1.ContainerRequests req) [] gp)
    as (_ & _ & Hv).
  rewrite Allocate_run. cbn zeta. cbn [value final].
  destruct (value (allocateRequests [] (v1beta1.ContainerRequests req) gp))
    as [res|e|i n]; [| |done].
  - exfalso. destruct Hv as (resps & _ & Hall).
    apply list_elem_of_lookup in Hr as [k Hk].
    destruct (Forall2_lookup_l _ _ _ _ _ Hall Hk) as (resp & _ & devs & Hdevs & _).
    apply list_elem_of_lookup in Hid as [k' Hk'].
    destruct (Forall2_lookup_l _ _ _ _ _ Hdevs Hk') as (dev & _ & Hdev).
    eapply allocatable_not_rejected; eauto.
  - destruct Hv as (r' & id' & ? & ? & ?). exists r', id', e. eauto 10.
Qed.

(** C6.  When [Allocate] succeeds, the response has one container
    response per container request, in order, and each holds, for every
    requested device in order, one binding per resolved path of the device
    in path order, with the path as host path and as container path and
    the permissions "mrw". *)
Theorem Allocate_bindings req gp res :
  value (Allocate req gp) = Ok res →
  Forall2
    (λ r resp,
       ∃ devs,
         Forall2 (λ id dev, devices gp !! id = Some dev)
           (v1beta1.DevicesIDs r) devs ∧
         v1beta1.Devices resp =
           concat ((λ dev,
             (λ path, v1beta1.mkDeviceSpec path path "mrw") <$> paths dev)
             <$> devs))
    (v1beta1.ContainerRequests req) (v1beta1.ContainerResponses res).
Proof.
  rewrite Allocate_run. cbn zeta. cbn [value].
  destruct (allocate_requests_run (v1beta1.ContainerRequests req) [] gp)
    as (_ & _ & Hv).
  destruct (value (allocateRequests [] (v1beta1.ContainerRequests req) gp))
    as [res'|e|i n]; [|done..].
  intros [= <-]. destruct Hv as (resps & -> & Hall). simpl.
  eapply Forall2_impl; [exact Hall|].
  intros r resp (devs & Hdevs & Hresp). exists devs. split; [|done].
  eapply Forall2_impl; [exact Hdevs|]. by intros ?? [? _].
Qed.

(** ** Health of the devices in the table *)

Lemma tableOf_lookup m devs id d :
  tableOf m devs !! id = Some d →
  (d ∈ devs ∧ ID d = id) ∨ m !! id = Some d.
Proof.
  unfold tableOf. revert m. induction devs as [|d' devs IH]; intros m; simpl.
  - by right.
  - intros [[Hin Hid]|Hm]%IH.
    + left. split; [by right|done].
    + destruct (decide (ID d' = id)) as [<-|Hne].
      * rewrite lookup_insert_eq in Hm. injection Hm as <-. left.
        split; [left|done].
      * rewrite lookup_insert_ne in Hm by done. by right.
Qed.

Lemma preserves_bind P {A B : Type} (m : M A) (f : A → M B) :
  preserves P m → (∀ a, preserves P (f a)) → preserves P (m ≫= f).
Proof.
  intros Hm Hf gp HP. rewrite run_bind. specialize (Hm gp HP).
  destruct (value (m gp)); [by apply Hf|done..].
Qed.

Lemma preserves_forM P {A S : Type} (f : S → A → M S) (l : list A) :
  (∀ s x, preserves P (f s x)) → ∀ s, preserves P (forM f s l).
Proof.
  intros Hf. induction l as [|x l IH]; intros s; [by intros gp|].
  rewrite run_forM_cons. by apply preserves_bind.
Qed.

Lemma preserves_same P {A : Type} (m : M A) :
  (∀ gp, final (m gp) = gp) → preserves P m.
Proof. intros Hm gp HP. by rewrite Hm. Qed.

Lemma pushDevices_final w ok gp : final (pushDevices w ok gp) = gp.
Proof.
  unfold pushDevices. destruct ok; [done|]. cbn [negb]. rewrite run_bind.
  cbn [readDevices value final]. unfold send. by destruct (Send w _).
Qed.

Lemma refreshDevices_healthy w : preserves healthyTable (refreshDevices w).
Proof.
  intros gp HP.
  destruct (discover w (ds gp)) as [devs|e|i n] eqn:Hd.
  - rewrite (refreshDevices_run _ _ _ Hd). cbn [final].
    intros id d [[Hin Hid]|Hm]%tableOf_lookup; [|by rewrite lookup_empty in Hm].
    apply discover_Ok in Hd. rewrite Forall_forall in Hd.
    by destruct (Hd d Hin) as [? _].
  - by rewrite (refreshDevices_Err _ _ _ Hd).
  - by rewrite (refreshDevices_Panic _ _ _ _ Hd).
Qed.

Lemma Allocate_devices req gp :
  devices (final (Allocate req gp)) = devices gp.
Proof.
  rewrite Allocate_run. cbn zeta. cbn [final].
  by destruct (value (allocateRequests _ _ gp)).
Qed.

Lemma ListAndWatch_healthy w0 ws :
  preserves healthyTable (ListAndWatch w0 ws).
Proof.
  assert (Hpush : ∀ w ok, preserves healthyTable (pushDevices w ok;; sleep)).
  { intros w ok. apply preserves_bind.
    - apply preserves_same, pushDevices_final.
    - intros _. by apply preserves_same. }
  apply preserves_bind.
  - apply preserves_bind; [apply refreshDevices_healthy|]. intros _. apply Hpush.
  - intros _. apply preserves_forM. intros _ w. apply preserves_bind.
    + apply refreshDevices_healthy.
    + intros ok. apply Hpush.
Qed.

Lemma reachable_healthy spec gp : reachable spec gp → healthyTable gp.
Proof.
  induction 1 as [|w gp _ IH|req gp _ IH|w0 ws gp _ IH].
  - intros id d Hl. unfold NewGenericPlugin in Hl. cbn [devices] in Hl.
    by rewrite lookup_empty in Hl.
  - by apply refreshDevices_healthy.
  - intros id d. rewrite Allocate_devices. apply IH.
  - by apply ListAndWatch_healthy.
Qed.

(** An error of [Allocate] is the rejection of a requested identifier. *)
Lemma Allocate_Err req gp e :
  value (Allocate req gp) = Err e →
  ∃ r id, r ∈ v1beta1.ContainerRequests req ∧ id ∈ v1beta1.DevicesIDs r ∧
          rejected (devices gp) id e.
Proof.
  rewrite Allocate_run. cbn zeta. cbn [value].
  destruct (allocate_requests_run (v1beta1.ContainerRequests req) [] gp)
    as (_ & _ & Hv).
  destruct (value (allocateRequests [] (v1beta1.ContainerRequests req) gp))
    as [res|e'|i n]; [done| |done].
  by intros [= <-].
Qed.

(** C8.  In every reachable state of the plugin, every device of the
    table is Healthy; hence no call of [Allocate] in such a state ends
    with the error of line 193, "requested device is not healthy". *)
Theorem reachable_table_healthy spec gp :
  reachable spec gp →
  (∀ id d, devices gp !! id = Some d → Health d = v1beta1.Healthy) ∧
  (∀ req id, value (Allocate req gp) ≠ Err (ErrNotHealthy id)).
Proof.
  intros Hinv%reachable_healthy. split.
  - intros id d Hl. by destruct (Hinv id d Hl).
  - intros req id (r & id' & _ & _ & Hrej)%Allocate_Err.
    destruct Hrej as [[_ [=]]|(dev & Hl & Hh & _)].
    by destruct (Hinv id' dev Hl).
Qed.

(** ** The watch loop *)

Lemma sentOf_app evs1 evs2 : sentOf (evs1 ++ evs2) = sentOf evs1 ++ sentOf evs2.
Proof.
  induction evs1 as [|ev evs1 IH]; [done|].
  destruct ev; simpl; by rewrite ?IH.
Qed.

Lemma listResponse_full w m : World_ok w → fullList m (listResponse w m).
Proof.
  intros Hw. unfold fullList, listResponse. cbn [v1beta1.ListDevices].
  rewrite <- (Hw m).
  assert (Hfold : ∀ l acc,
    foldl (λ res '(_, dev), res ++ [v1beta1.mkDevice (ID dev) (Health dev)])
      acc l =
    acc ++ ((λ kd : string * device,
               v1beta1.mkDevice (ID kd.2) (Health kd.2)) <$> l)).
  { induction l as [|[k dev] l IH]; intros acc; simpl.
    - by rewrite app_nil_r.
    - by rewrite IH, <- app_assoc. }
  by rewrite Hfold.
Qed.

Lemma pushDevices_run w ok gp :
  pushDevices w ok gp =
  if ok then mkOutcome (Ok ()) gp []
  else mkOutcome
         (match Send w (listResponse w (devices gp)) with
          | None => Ok ()
          | Some e => Err e
          end)
         gp [EvReadDevices; EvSend (listResponse w (devices gp))].
Proof.
  unfold pushDevices. destruct ok; [done|]. cbn [negb]. rewrite run_bind.
  cbn [readDevices value final events]. unfold send, listResponse.
  by destruct (Send w _).
Qed.

Lemma sentOf_refreshDevices w gp : sentOf (events (refreshDevices w gp)) = [].
Proof.
  destruct (discover w (ds gp)) as [devs|e|i n] eqn:Hd.
  - rewrite (refreshDevices_run _ _ _ Hd). cbn [events sentOf].
    rewrite sentOf_app. simpl. rewrite app_nil_r.
    by induction (length devs).
  - by rewrite (refreshDevices_Err _ _ _ Hd).
  - by rewrite (refreshDevices_Panic _ _ _ _ Hd).
Qed.

(** The body of the loop after any reconciliation [refresh] that sends
    nothing itself; [k] is what the loop makes of the result. *)
Lemma watch_segment w (refresh : M bool) (k : bool → bool) gp :
  World_ok w →
  sentOf (events (refresh gp)) = [] →
  afterRefresh w
    (match value (refresh gp) with
     | Ok b => Ok (k b)
     | Err e => Err e
     | Panic i n => Panic i n
     end)
    (final (refresh gp))
    ((refresh ≫= λ ok, pushDevices w (k ok);; sleep) gp).
Proof.
  intros Hw Hsent. unfold afterRefresh. rewrite run_bind.
  destruct (value (refresh gp)) as [b|e|i n]; cbn [events value final];
    [|done..].
  rewrite run_bind, pushDevices_run, !sentOf_app, Hsent.
  destruct (k b); cbn [value final events].
  - by cbn.
  - split; [by destruct (Send w _)|].
    exists (listResponse w (devices (final (refresh gp)))).
    split; [by apply listResponse_full|].
    by destruct (Send w _).
Qed.

Lemma forM_app {A S : Type} (f : S → A → M S) (l1 l2 : list A) :
  ∀ s gp, forM f s (l1 ++ l2) gp = (forM f s l1 ≫= λ s', forM f s' l2) gp.
Proof.
  induction l1 as [|x l1 IH]; intros s gp.
  - rewrite run_bind. simpl. by rewrite <- outcome_eta.
  - simpl. rewrite !run_bind. destruct (value (f s x gp)); [|done..].
    rewrite IH, !run_bind. cbn [value final events].
    destruct (value (forM f a l1 _)); cbn [value final events];
      by rewrite ?app_assoc.
Qed.

(** Once [ListAndWatch] has returned an error, further ticks change
    nothing. *)
Lemma ListAndWatch_returned w0 ws ws' gp e :
  value (ListAndWatch w0 ws gp) = Err e →
  ListAndWatch w0 (ws ++ ws') gp = ListAndWatch w0 ws gp.
Proof.
  rewrite !ListAndWatch_run, !run_bind.
  destruct (value (ListAndWatch_start w0 gp)); [|done..].
  cbn [value]. rewrite forM_app, run_bind. intros ->.
  done.
Qed.

(** The passes of the loop one by one, in a well-formed world. *)
Lemma ListAndWatch_passes w gp :
  World_ok w →
  afterRefresh w (forced (value (refreshDevices w gp)))
    (final (refreshDevices w gp)) (ListAndWatch_start w gp) ∧
  afterRefresh w (value (refreshDevices w gp))
    (final (refreshDevices w gp)) (ListAndWatch_tick w gp) ∧
  pushDevices w true gp = mkOutcome (Ok ()) gp [] ∧
  (∀ w0 ws ws' e,
     value (ListAndWatch w0 ws gp) = Err e →
     ListAndWatch w0 (ws ++ ws') gp = ListAndWatch w0 ws gp).
Proof.
  intros Hw. split; [|split; [|split]].
  - pose proof (watch_segment w (refreshDevices w) (λ _, false) gp Hw
                  (sentOf_refreshDevices w gp)) as H.
    unfold forced. by destruct (value (refreshDevices w gp)).
  - pose proof (watch_segment w (refreshDevices w) id gp Hw
                  (sentOf_refreshDevices w gp)) as H.
    by destruct (value (refreshDevices w gp)).
  - done.
  - intros w0 ws ws' e. apply ListAndWatch_returned.
Qed.

(** *** The protocol of the stream *)

(** One pass of the loop over a reconciliation that sends nothing
    itself; [k] is what the loop makes of the result. *)
Lemma watch_pass (refresh : World → M bool) w (k : bool → bool) gp :
  sentOf (events (refresh w gp)) = [] →
  observed ((refresh w ≫= λ ok, pushDevices w (k ok);; sleep) gp) =
  match value (refresh w gp) with
  | Err e => (Err e, final (refresh w gp), [])
  | Panic i n => (Panic i n, final (refresh w gp), [])
  | Ok b =>
      if k b then (Ok (), final (refresh w gp), [])
      else
        let res := listResponse w (devices (final (refresh w gp))) in
        (match Send w res with None => Ok () | Some e => Err e end,
         final (refresh w gp), [res])
  end.
Proof.
  intros Hsent. unfold observed. rewrite run_bind.
  destruct (value (refresh w gp)) as [b|e|i n]; cbn [events value final];
    [|by rewrite Hsent..].
  rewrite run_bind, pushDevices_run, !sentOf_app, Hsent.
  destruct (k b); cbn [value final events]; [done|].
  by destruct (Send w _).
Qed.

Lemma watch_ticks (refresh : World → M bool) ws :
  (∀ w gp, sentOf (events (refresh w gp)) = []) →
  ∀ gp, observed (forM (λ _ w, watch_tick refresh w) () ws gp) =
        watchSpec refresh false ws gp.
Proof.
  intros Hsent. induction ws as [|w ws IH]; intros gp; [done|].
  rewrite run_forM_cons. unfold observed at 1. rewrite run_bind.
  pose proof (watch_pass refresh w id gp (Hsent w gp)) as Hp.
  change ((refresh w ≫= λ ok, pushDevices w (id ok);; sleep) gp)
    with (watch_tick refresh w gp) in Hp.
  unfold observed in Hp. cbn [watchSpec negb andb].
  specialize (IH (final (refresh w gp))). unfold observed in IH.
  destruct (value (refresh w gp)) as [[]|e|i n]; cbn [id] in Hp;
    [|destruct (Send w _) as [e|]|..];
    injection Hp as Hv Hf Hs; rewrite Hv; cbn [value final events];
    rewrite ?sentOf_app, ?Hf, ?Hs; try done.
  all: by rewrite <- IH.
Qed.

Lemma watch_run (refresh : World → M bool) w0 ws gp :
  (∀ w gp, sentOf (events (refresh w gp)) = []) →
  observed (watch refresh w0 ws gp) = watchSpec refresh true (w0 :: ws) gp.
Proof.
  intros Hsent. unfold watch, observed. rewrite run_bind.
  pose proof (watch_pass refresh w0 (λ _, false) gp (Hsent w0 gp)) as Hp.
  change ((refresh w0 ≫= λ ok, pushDevices w0 ((λ _, false) ok);; sleep) gp)
    with (watch_start refresh w0 gp) in Hp.
  unfold observed in Hp. cbn [watchSpec negb andb].
  pose proof (watch_ticks refresh ws Hsent (final (refresh w0 gp))) as IH.
  unfold observed in IH.
  destruct (value (refresh w0 gp)) as [b|e|i n];
    [destruct (Send w0 _) as [e|]|..];
    injection Hp as Hv Hf Hs; rewrite Hv; cbn [value final events];
    rewrite ?sentOf_app, ?Hf, ?Hs; try done.
  all: by rewrite <- IH.
Qed.

Lemma sentOf_settled w gp : sentOf (events (settled w gp)) = [].
Proof.
  unfold settled. rewrite run_bind.
  destruct (value (refreshDevices w gp)); cbn [events];
    rewrite ?sentOf_app, sentOf_refreshDevices; done.
Qed.

(** C9.  The whole run of [ListAndWatch], from the call through any
    number of ticks, is the protocol [watchSpec]: it returns the same
    value, leaves the same state and sends the same messages, in the same
    order.  That is: it reconciles and sends the whole table whatever the
    first reconciliation reported; at every later tick it reconciles,
    sends nothing when the reconciliation reported unchanged and the
    whole new table otherwise; the first error of a reconciliation or of a
    send is the value that [ListAndWatch] returns, and nothing is
    reconciled or sent after it.  As [refreshDevices] never reports
    unchanged, the same is stated of the loop over any reconciliation
    that sends nothing itself, which shows that the loop sends on a tick
    exactly when its reconciliation did not report unchanged.  In a
    well-formed world a message of the protocol lists every device of the
    table once, by identifier and health. *)
Theorem ListAndWatch_protocol (refresh : World → M bool) w0 ws gp :
  (∀ w gp, sentOf (events (refresh w gp)) = []) →
  observed (ListAndWatch w0 ws gp)
    = watchSpec refreshDevices true (w0 :: ws) gp ∧
  observed (watch refresh w0 ws gp) = watchSpec refresh true (w0 :: ws) gp ∧
  (∀ w m, World_ok w → fullList m (listResponse w m)).
Proof.
  intros Hsent. split; [|split].
  - apply (watch_run refreshDevices), sentOf_refreshDevices.
  - by apply watch_run.
  - intros w m. apply listResponse_full.
Qed.

(** ** Lock discipline *)

Lemma guarded_accesses evs :
  Forall (λ ev, ev = EvReadDevices ∨ ev = EvWriteDevices) evs →
  guarded true (evs ++ [EvUnlock]) = true.
Proof. induction 1 as [|ev evs [-> | ->] _ IH]; simpl; done. Qed.

(** [Allocate] touches the table only between [Lock] and [Unlock]. *)
Lemma Allocate_guarded req gp : guarded false (events (Allocate req gp)) = true.
Proof.
  rewrite Allocate_run. cbn zeta. cbn [events guarded].
  destruct (allocate_requests_run (v1beta1.ContainerRequests req) [] gp)
    as (_ & Hev & _).
  apply guarded_accesses. eapply Forall_impl; [exact Hev|].
  intros ev ->. by left.
Qed.

(** So does [refreshDevices]. *)
Lemma refreshDevices_guarded w gp :
  guarded false (events (refreshDevices w gp)) = true.
Proof.
  destruct (discover w (ds gp)) as [devs|e|i n] eqn:Hd.
  - rewrite (refreshDevices_run _ _ _ Hd). cbn [events guarded andb].
    apply guarded_accesses, Forall_replicate. by right.
  - by rewrite (refreshDevices_Err _ _ _ Hd).
  - by rewrite (refreshDevices_Panic _ _ _ _ Hd).
Qed.

(** [ListAndWatch] does not: whenever it gets to send, it has read the
    table after [refreshDevices] released the lock. *)
Lemma ListAndWatch_start_unguarded w gp devs :
  discover w (ds gp) = Ok devs →
  guarded false (events (ListAndWatch_start w gp)) = false.
Proof.
  intros Hd. unfold ListAndWatch_start, watch_start. rewrite run_bind.
  rewrite (refreshDevices_run _ _ _ Hd). cbn [value final events].
  rewrite run_bind, pushDevices_run. cbn [value final events guarded andb app].
  rewrite <- app_assoc. cbn [app].
  destruct (Send w _); cbn [value final events];
    induction (length devs) as [|n IH]; done.
Qed.

(** C10 (defect in the code).  The first pass of
    [ListAndWatch] on a new plugin with two serial adapters: the
    reconciliation locks, reads and writes the table and unlocks; then
    lines 225-227 read the table with the lock released. *)
Theorem ListAndWatch_reads_table_unlocked :
  ∃ res,
    events (ListAndWatch_start serialWorld (NewGenericPlugin serialSpec)) =
      [EvLock; EvReadDevices; EvWriteDevices; EvWriteDevices; EvWriteDevices;
       EvUnlock; EvReadDevices; EvSend res; EvSleep] ∧
    guarded false
      (events (ListAndWatch_start serialWorld (NewGenericPlugin serialSpec)))
    = false.
Proof. eexists. split; vm_compute; reflexivity. Qed.

(** ** Instances on the serial adapters *)

(** [Allocate_atomic] on the request for the first adapter and the
    unknown device "B". *)
Lemma Allocate_atomic_witness :
  ∃ r' id' e,
    r' ∈ v1beta1.ContainerRequests requestUnknown ∧
    id' ∈ v1beta1.DevicesIDs r' ∧
    rejected (devices serialPlugin) id' e ∧
    value (Allocate requestUnknown serialPlugin) = Err e ∧
    final (Allocate requestUnknown serialPlugin) = serialPlugin ∧
    allocationsCounter (final (Allocate requestUnknown serialPlugin))
      = allocationsCounter serialPlugin.
Proof.
  apply (Allocate_atomic requestUnknown serialPlugin
           (v1beta1.mkContainerAllocateRequest [ID usb0; "B"]) "B").
  - simpl. left.
  - simpl. right. left.
  - left. vm_compute. reflexivity.
Defined.

(** [Allocate_bindings] on the request for both adapters. *)
Lemma Allocate_bindings_witness :
  value (Allocate requestBoth serialPlugin) = Ok responseBoth ∧
  Forall2
    (λ r resp,
       ∃ devs,
         Forall2 (λ id dev, devices serialPlugin !! id = Some dev)
           (v1beta1.DevicesIDs r) devs ∧
         v1beta1.Devices resp =
           concat ((λ dev,
             (λ path, v1beta1.mkDeviceSpec path path "mrw") <$> paths dev)
             <$> devs))
    (v1beta1.ContainerRequests requestBoth)
    (v1beta1.ContainerResponses responseBoth).
Proof.
  split; [vm_compute; reflexivity|].
  apply (Allocate_bindings requestBoth serialPlugin responseBoth).
  vm_compute. reflexivity.
Defined.

(** [reachable_table_healthy] on the plugin after one reconciliation. *)
Lemma reachable_table_healthy_witness :
  reachable serialSpec serialPlugin ∧
  Health usb0 = v1beta1.Healthy ∧
  value (Allocate requestBoth serialPlugin) ≠ Err (ErrNotHealthy (ID usb0)).
Proof.
  assert (Hr : reachable serialSpec serialPlugin)
    by apply reach_refresh, reach_new.
  split; [exact Hr|].
  destruct (reachable_table_healthy serialSpec serialPlugin Hr) as [Hh Ha].
  split; [|apply Ha].
  apply (Hh (ID usb0)). vm_compute. reflexivity.
Defined.

Lemma serialWorld_ok : World_ok serialWorld.
Proof. intros m. reflexivity. Qed.

(** [ListAndWatch_protocol] on the two adapters, the second one being
    unplugged before the second tick: [ListAndWatch] sends the table
    three times, the loop over [settled] sends it once, at the call. *)
Lemma ListAndWatch_protocol_witness :
  (∀ w gp, sentOf (events (settled w gp)) = []) ∧
  sentOf (events (ListAndWatch serialWorld [serialWorld; unpluggedWorld]
                    (NewGenericPlugin serialSpec)))
    = [ v1beta1.mkListAndWatchResponse [Device usb1; Device usb0];
        v1beta1.mkListAndWatchResponse [Device usb1; Device usb0];
        v1beta1.mkListAndWatchResponse [Device usb0] ] ∧
  sentOf (events (watch settled serialWorld [serialWorld; unpluggedWorld]
                    (NewGenericPlugin serialSpec)))
    = [ v1beta1.mkListAndWatchResponse [Device usb1; Device usb0] ] ∧
  value (ListAndWatch serialWorld [closedWorld; unpluggedWorld]
           (NewGenericPlugin serialSpec))
    = Err (ErrSend "transport is closing") ∧
  observed (ListAndWatch serialWorld [serialWorld; unpluggedWorld]
              (NewGenericPlugin serialSpec))
    = watchSpec refreshDevices true
        (serialWorld :: [serialWorld; unpluggedWorld])
        (NewGenericPlugin serialSpec) ∧
  observed (watch settled serialWorld [serialWorld; unpluggedWorld]
              (NewGenericPlugin serialSpec))
    = watchSpec settled true (serialWorld :: [serialWorld; unpluggedWorld])
        (NewGenericPlugin serialSpec) ∧
  (∀ w m, World_ok w → fullList m (listResponse w m)).
Proof.
  split; [exact sentOf_settled|].
  split; [vm_compute; reflexivity|].
  split; [vm_compute; reflexivity|].
  split; [vm_compute; reflexivity|].
  apply (ListAndWatch_protocol settled serialWorld
           [serialWorld; unpluggedWorld] (NewGenericPlugin serialSpec)).
  exact sentOf_settled.
Defined.

(** ** Further properties of the operations *)

Lemma fpgaWorld_matches :
  Forall2 (λ pat raw, Glob fpgaWorld pat = Some raw ∧ raw ≠ [])
    fpgaGroup fpgaMatches.
Proof. repeat constructor; done. Qed.

(** Match counts 3 and 5 with a count of 2: the group contributes
    3 × 2 devices. *)
Lemma discoverGroup_truncation_witness :
  ∃ new,
    discoverGroup fpgaWorld 2 [] fpgaGroup = Ok ([] ++ new) ∧
    length new = min_list (length <$> fpgaMatches) * N.to_nat 2.
Proof.
  apply (discoverGroup_truncation fpgaWorld 2 [] fpgaGroup fpgaMatches).
  apply fpgaWorld_matches.
Defined.

(** X2.  The allocations counter: a successful [Allocate] answers every
    container request and adds their number to the counter, leaving the
    table as it was. *)
Theorem Allocate_counts_requests req gp res :
  value (Allocate req gp) = Ok res →
  length (v1beta1.ContainerResponses res)
    = length (v1beta1.ContainerRequests req) ∧
  final (Allocate req gp)
    = add_allocationsCounter (length (v1beta1.ContainerRequests req)) gp.
Proof.
  rewrite Allocate_run. cbn zeta. cbn [value final].
  destruct (allocate_requests_run (v1beta1.ContainerRequests req) [] gp)
    as (_ & _ & Hv).
  destruct (value (allocateRequests [] (v1beta1.ContainerRequests req) gp))
    as [res'|e|i n]; [|done..].
  intros [= <-]. destruct Hv as (resps & -> & Hall%Forall2_length).
  simpl. by rewrite Hall.
Qed.

(** [Allocate_counts_requests] on the request for both adapters. *)
Lemma Allocate_counts_requests_witness :
  length (v1beta1.ContainerResponses responseBoth)
    = length (v1beta1.ContainerRequests requestBoth) ∧
  final (Allocate requestBoth serialPlugin)
    = add_allocationsCounter (length (v1beta1.ContainerRequests requestBoth))
        serialPlugin.
Proof.
  apply (Allocate_counts_requests requestBoth serialPlugin responseBoth).
  vm_compute. reflexivity.
Defined.

(** X3.  [Allocate] and [refreshDevices] read and write the table only
    between [Lock] and [Unlock]. *)
Theorem locked_table_access w req gp :
  guarded false (events (Allocate req gp)) = true ∧
  guarded false (events (refreshDevices w gp)) = true.
Proof. split; [apply Allocate_guarded|apply refreshDevices_guarded]. Qed.

Lemma refreshDevices_ds w gp : ds (final (refreshDevices w gp)) = ds gp.
Proof.
  destruct (discover w (ds gp)) as [devs|e|i n] eqn:Hd.
  - by rewrite (refreshDevices_run _ _ _ Hd).
  - by rewrite (refreshDevices_Err _ _ _ Hd).
  - by rewrite (refreshDevices_Panic _ _ _ _ Hd).
Qed.

(** X4.  The table that a reconciliation leaves when discovery succeeds
    depends on the device specification and the file system only, not on
    the table before: two plugins with the same specification end with
    the same table, whatever their tables held.  Reconciling once more in
    the same world then changes nothing, also when discovery fails. *)
Theorem refreshDevices_forgets w gp1 gp2 :
  (ds gp1 = ds gp2 →
   (∃ devs, discover w (ds gp1) = Ok devs) →
   devices (final (refreshDevices w gp1))
   = devices (final (refreshDevices w gp2))) ∧
  devices (final (refreshDevices w (final (refreshDevices w gp1))))
  = devices (final (refreshDevices w gp1)).
Proof.
  split.
  - intros Hds [devs Hd].
    rewrite (refreshDevices_run w gp1 devs Hd).
    rewrite (refreshDevices_run w gp2 devs) by (by rewrite <- Hds).
    done.
  - pose proof (refreshDevices_ds w gp1) as Hds.
    destruct (discover w (ds gp1)) as [devs|e|i n] eqn:Hd.
    + rewrite (refreshDevices_run w (final _) devs) by (by rewrite Hds).
      by rewrite (refreshDevices_run _ _ _ Hd).
    + rewrite (refreshDevices_Err w (final _) e) by (by rewrite Hds). done.
    + rewrite (refreshDevices_Panic w (final _) i n) by (by rewrite Hds).
      done.
Qed.

(** One pattern with the matches a1 and a2 and a count of 2: four
    devices, two per path, with four different identifiers. *)
Theorem discover_two_instances_per_path :
  discover tmpWorld tmpSpec = Ok tmpDevices ∧
  paths <$> tmpDevices
    = [["/tmp/dev/a1"]; ["/tmp/dev/a1"]; ["/tmp/dev/a2"]; ["/tmp/dev/a2"]] ∧
  NoDup (ID <$> tmpDevices).
Proof.
  split; [vm_compute; reflexivity|]. split; [done|].
  refine (bool_decide_unpack _ _). vm_compute. exact I.
Qed.

(** After the second adapter is unplugged, the next reconciliation
    answers [false] and the table no longer has its identifier. *)
Theorem refreshDevices_detects_removal :
  value (refreshDevices unpluggedWorld serialPlugin) = Ok false ∧
  devices (final (refreshDevices unpluggedWorld serialPlugin)) !! ID usb1
    = None ∧
  devices (final (refreshDevices unpluggedWorld serialPlugin)) !! ID usb0
    = Some usb0.
Proof. repeat split; vm_compute; reflexivity. Qed.

(** [globGroup_sorted] on the two patterns of [fpgaGroup]. *)
Lemma globGroup_sorted_witness :
  Forall2 (λ raw ms, Sorted string_le ms ∧ ms ≡ₚ raw) fpgaMatches
    [ ["/dev/fpga0"; "/dev/fpga1"; "/dev/fpga2"];
      ["/sys/class/fpga/a"; "/sys/class/fpga/b"; "/sys/class/fpga/c";
       "/sys/class/fpga/d"; "/sys/class/fpga/e"] ].
Proof.
  apply (globGroup_sorted fpgaWorld fpgaGroup fpgaMatches _ 3).
  - repeat constructor; done.
  - vm_compute. reflexivity.
Defined.

(** ** Allocation as a function of the table *)

Lemma firstRejection_cons m id ids :
  firstRejection m (id :: ids) =
  match checkDevice m id with
  | Some e => Some e
  | None => firstRejection m ids
  end.
Proof. unfold firstRejection. simpl. by destruct (checkDevice m id). Qed.

Lemma firstRejection_app m ids1 ids2 :
  firstRejection m (ids1 ++ ids2) =
  match firstRejection m ids1 with
  | Some e => Some e
  | None => firstRejection m ids2
  end.
Proof. unfold firstRejection. by rewrite omap_app, head_app. Qed.

Lemma allocate_ids_value ids : ∀ resp gp,
  value (forM allocateDevice resp ids gp) =
  match firstRejection (devices gp) ids with
  | Some e => Err e
  | None =>
      Ok (resp ++ concat ((λ id, from_option bindingsOf [] (devices gp !! id))
                            <$> ids))
  end.
Proof.
  induction ids as [|id ids IH]; intros resp gp.
  - simpl. by rewrite app_nil_r.
  - rewrite run_forM_cons, run_bind, allocateDevice_run, firstRejection_cons.
    unfold checkDevice. cbn [value final].
    destruct (devices gp !! id) as [dev|] eqn:Hl; [|done].
    destruct (decide (Health dev ≠ v1beta1.Healthy)); [done|].
    cbn [value]. rewrite IH. destruct (firstRejection _ ids); [done|].
    cbn [fmap list_fmap concat]. rewrite Hl. simpl. by rewrite <- app_assoc.
Qed.

Lemma allocate_ids_final ids resp gp :
  final (forM allocateDevice resp ids gp) = gp.
Proof. by destruct (allocate_ids_run ids resp gp) as (? & _). Qed.

Lemma allocate_requests_value reqs : ∀ res gp,
  value (allocateRequests res reqs gp) =
  match firstRejection (devices gp) (concat (v1beta1.DevicesIDs <$> reqs)) with
  | Some e => Err e
  | None => Ok (res ++ (containerResponse (devices gp) <$> reqs))
  end.
Proof.
  unfold allocateRequests.
  induction reqs as [|r reqs IH]; intros res gp.
  - simpl. by rewrite app_nil_r.
  - rewrite run_forM_cons, !run_bind, allocate_ids_value, allocate_ids_final.
    cbn [fmap list_fmap concat]. rewrite firstRejection_app.
    destruct (firstRejection (devices gp) (v1beta1.DevicesIDs r)); [done|].
    cbn [value final mret M_ret]. rewrite IH.
    destruct (firstRejection _ _); [done|].
    unfold containerResponse at 2. simpl. by rewrite <- app_assoc.
Qed.

(** X8.  [Allocate] as a function of the table: it goes through the
    identifiers of the request in order, container after container, and
    returns the error of the first one that is missing from the table or
    not Healthy; when there is none, it returns for each container the
    bindings of its devices in the order of the request. *)
Theorem Allocate_value req gp :
  value (Allocate req gp) =
  match firstRejection (devices gp) (requestedIDs req) with
  | Some e => Err e
  | None =>
      Ok (v1beta1.mkAllocateResponse
            (containerResponse (devices gp) <$> v1beta1.ContainerRequests req))
  end.
Proof.
  rewrite Allocate_run. cbn zeta. cbn [value].
  rewrite allocate_requests_value. unfold requestedIDs.
  by destruct (firstRejection _ _).
Qed.

(** ** Discovery as a function of the matches *)

(** Lines 99-110 succeed only when every pattern is well formed. *)
Lemma globGroup_Ok_inv w group : ∀ i gpaths len r,
  globGroup w i group gpaths len = Ok r →
  ∃ raws, Forall2 (λ pat raw, Glob w pat = Some raw) group raws.
Proof.
  induction group as [|pat group IH]; intros i gpaths len r; simpl.
  - exists []. constructor.
  - destruct (Glob w pat) as [raw|] eqn:Hpat; [|done].
    intros (raws & Hall)%IH. exists (raw :: raws). by constructor.
Qed.

Lemma index2_Ok_inv gpaths k i p :
  index2 gpaths k i = Ok p →
  ∃ ms, gpaths !! k = Some ms ∧ ms !! i = Some p.
Proof.
  unfold index2. destruct (gpaths !! k) as [ms|]; [|done].
  destruct (ms !! i) as [q|] eqn:Hq; [|done]. intros [= <-]. eauto.
Qed.

Lemma discoverGroup_aligned w count devs group devs' :
  discoverGroup w count devs group = Ok devs' →
  ∃ new, devs' = devs ++ new ∧ Forall (aligned w group) new.
Proof.
  unfold discoverGroup. intros ([gpaths len] & Hglob & Hrun)%mbind_Ok_inv.
  destruct (globGroup_Ok_inv _ _ _ _ _ _ Hglob) as [raws Hraws].
  rewrite (globGroup_run w group raws 0 _ _ Hraws) in Hglob
    by (rewrite length_replicate; lia).
  rewrite take_0, drop_ge, app_nil_r in Hglob
    by (rewrite length_replicate; lia).
  cbn [app] in Hglob. injection Hglob as <- <-.
  revert Hrun. apply foldlR_appends. intros acc i acc' _.
  apply foldlR_appends. clear acc acc'. intros acc j acc' _.
  intros (d & Hd & [= <-])%mbind_Ok_inv. exists [d]. split; [done|].
  apply newDevice_Ok in Hd as (_ & _ & Hlen & Hidx).
  repeat constructor. exists i.
  apply Forall2_same_length_lookup. split; [done|].
  intros k pat p Hpat Hp.
  apply Hidx, index2_Ok_inv in Hp as (ms & Hms & Hp).
  rewrite list_lookup_fmap in Hms.
  destruct (raws !! k) as [raw|] eqn:Hraw; [|done].
  simpl in Hms. injection Hms as <-. exists raw. split; [|done].
  by destruct (Forall2_lookup_lr _ _ _ _ _ _ Hraws Hpat Hraw).
Qed.

(** X9.  Positional alignment: every device that discovery returns
    belongs to one group of the specification and holds, for each pattern
    of the group in order, the match found at one and the same position of
    the sorted matches of that pattern. *)
Theorem discover_aligned w spec devs d :
  discover w spec = Ok devs →
  d ∈ devs →
  ∃ group, group ∈ Groups spec ∧ aligned w group d.
Proof.
  unfold discover. intros Hrun Hin.
  eapply (foldlR_appends (λ d, ∃ group, group ∈ Groups spec ∧ aligned w group d))
    in Hrun as (new & -> & Hnew).
  - rewrite Forall_forall in Hnew. by apply Hnew.
  - intros acc group acc' Hgroup (new & -> & Hnew)%discoverGroup_aligned.
    exists new. split; [done|]. eapply Forall_impl; [exact Hnew|].
    intros d' Hd'. by exists group.
Qed.

Lemma newDevice_slot group gpaths i j :
  length gpaths = length group →
  Forall (λ ms, i < length ms) gpaths →
  newDevice group gpaths i j =
  Ok (let ps := (λ ms, default "" (ms !! i)) <$> gpaths in
      mkdevice (v1beta1.mkDevice (spec_identifier j ps) v1beta1.Healthy) ps).
Proof.
  intros Hlen Hall.
  destruct (newDevice_total group gpaths i j Hlen Hall) as [d Hd].
  rewrite Hd. f_equal.
  apply newDevice_Ok in Hd as (Hh & Hid & Hlen' & Hidx).
  assert (Hps : paths d = (λ ms, default "" (ms !! i)) <$> gpaths).
  { apply list_eq_same_length with (length group);
      [by rewrite length_fmap|done|].
    intros k p q _ Hp Hq.
    apply Hidx, index2_Ok_inv in Hp as (ms & Hms & Hp).
    rewrite list_lookup_fmap, Hms in Hq. simpl in Hq.
    rewrite Hp in Hq. by injection Hq. }
  cbn zeta. rewrite <- Hps, <- Hid.
  destruct d as [[id h] ps]. unfold ID, Health in *. simpl in *. by subst.
Qed.

(** A loop that appends [G x] to its accumulator at every iteration. *)
Lemma foldlR_concat {A B : Type} (G : A → list B)
    (f : list B → A → result (list B)) (l : list A) :
  (∀ acc x, x ∈ l → f acc x = Ok (acc ++ G x)) →
  ∀ acc, foldlR f acc l = Ok (acc ++ concat (G <$> l)).
Proof.
  induction l as [|x l IH]; intros Hf acc; simpl.
  - by rewrite app_nil_r.
  - rewrite Hf by left. cbn [mbind result_bind].
    rewrite IH by (intros; apply Hf; by right). by rewrite app_assoc.
Qed.

(** One group as a function of its matches. *)
Lemma discoverGroup_devices w count devs group raws :
  Forall2 (λ pat raw, Glob w pat = Some raw ∧ raw ≠ []) group raws →
  discoverGroup w count devs group = Ok (devs ++ groupDevices raws count).
Proof.
  intros Hall. unfold discoverGroup.
  assert (Hlen : length raws = length group)
    by (symmetry; by eapply Forall2_length).
  rewrite (globGroup_run w group raws 0).
  2: { eapply Forall2_impl; [exact Hall|]. by intros ?? [? _]. }
  2: { rewrite length_replicate. lia. }
  rewrite take_0, drop_ge by (rewrite length_replicate; lia).
  rewrite app_nil_r. cbn [app mbind result_bind].
  rewrite shortest_positive.
  2: { apply Forall_fmap, Forall_forall. intros raw Hraw.
       apply list_elem_of_lookup in Hraw as [k Hk].
       destruct (Forall2_lookup_r _ _ _ _ _ Hall Hk) as (pat & _ & _ & Hne).
       destruct raw; [done|simpl; lia]. }
  unfold groupDevices. apply foldlR_concat. intros acc i Hi%elem_of_seq.
  replace ((λ j, slotDevice raws i j) <$> ordinals count)
    with (concat ((λ j, [slotDevice raws i j]) <$> ordinals count)).
  2: { induction (ordinals count) as [|j js IH]; [done|]. simpl. by f_equal. }
  apply foldlR_concat. intros acc' j _.
  rewrite (newDevice_slot group (sortStrings <$> raws) i j).
  - cbn [mbind result_bind]. cbn zeta. unfold slotDevice, slotPaths.
    by rewrite <- list_fmap_compose.
  - by rewrite length_fmap.
  - apply Forall_fmap, Forall_forall. intros raw Hraw. simpl.
    rewrite length_sortStrings.
    pose proof (min_list_le (length <$> raws)) as Hmin.
    rewrite Forall_fmap, Forall_forall in Hmin. specialize (Hmin raw Hraw).
    simpl in Hmin. lia.
Qed.

Lemma discover_groups w count groups rawss :
  Forall2 (λ group raws,
      Forall2 (λ pat raw, Glob w pat = Some raw ∧ raw ≠ []) group raws)
    groups rawss →
  ∀ acc, foldlR (discoverGroup w count) acc groups =
         Ok (acc ++ concat ((λ raws, groupDevices raws count) <$> rawss)).
Proof.
  induction 1 as [|group raws groups rawss Hgroup _ IH]; intros acc; simpl.
  - by rewrite app_nil_r.
  - rewrite (discoverGroup_devices _ _ _ _ _ Hgroup). cbn [mbind result_bind].
    by rewrite IH, app_assoc.
Qed.

(** X5.  Discovery as a function of the matches: when every pattern of
    every group is well formed and matches at least one path, [discover]
    returns, group after group, for each position below the least match
    count of the group and in this order, one device per ordinal below
    the count; the device holds the sorted match at that position for each
    pattern and is Healthy, and its identifier is the digest of the
    ordinal followed by these paths. *)
Theorem discover_devices w spec rawss :
  Forall2 (λ group raws,
      Forall2 (λ pat raw, Glob w pat = Some raw ∧ raw ≠ []) group raws)
    (Groups spec) rawss →
  discover w spec =
  Ok (concat ((λ raws, groupDevices raws (Count spec)) <$> rawss)).
Proof. intros Hall. unfold discover. by rewrite (discover_groups _ _ _ _ Hall). Qed.

(** *** A count of zero *)

Lemma globGroup_not_Panic w group : ∀ i gpaths len a n,
  globGroup w i group gpaths len ≠ Panic a n.
Proof.
  induction group as [|pat group IH]; intros i gpaths len a n; simpl; [done|].
  destruct (Glob w pat); [apply IH|done].
Qed.

Lemma discoverGroup_count_zero w devs group :
  discoverGroup w 0 devs group = Ok devs ∨
  discoverGroup w 0 devs group = Err ErrBadPattern.
Proof.
  unfold discoverGroup.
  destruct (globGroup w 0 group _ 0) as [[gpaths len]|e|a n] eqn:Hglob.
  - left. cbn [mbind result_bind]. change (ordinals 0) with (@nil N).
    induction (seq 0 len) as [|i l IH]; [done|].
    cbn [foldlR mbind result_bind]. exact IH.
  - right. by apply globGroup_Err in Hglob as [-> _].
  - by apply globGroup_not_Panic in Hglob.
Qed.

(** X10.  With a count of zero [discover] builds no device and reads no
    match: whatever the patterns match it returns the empty list, or the
    error of a malformed pattern, and it never panics. *)
Theorem discover_count_zero w spec :
  Count spec = 0%N →
  discover w spec = Ok [] ∨ discover w spec = Err ErrBadPattern.
Proof.
  intros Hcount. unfold discover. rewrite Hcount.
  induction (Groups spec) as [|group groups IH]; [by left|]. simpl.
  destruct (discoverGroup_count_zero w [] group) as [-> | ->]; [|by right].
  exact IH.
Qed.

(** *** The instances of a position *)

(** A loop that appends one element per iteration. *)
Lemma foldlR_map_inv {A B : Type} (f : A → result B) (g : A → B)
    (l : list A) :
  (∀ x y, x ∈ l → f x = Ok y → y = g x) →
  ∀ acc acc', foldlR (λ acc x, y ← f x; Ok (acc ++ [y])) acc l = Ok acc' →
              acc' = acc ++ (g <$> l).
Proof.
  induction l as [|x l IH]; intros Hf acc acc'; simpl.
  - intros [= <-]. by rewrite app_nil_r.
  - intros (acc1 & (y & Hy & [= <-])%mbind_Ok_inv & Hl)%mbind_Ok_inv.
    apply IH in Hl; [|intros; apply Hf; [by right|done]].
    rewrite Hl, <- app_assoc. simpl. f_equal. f_equal.
    apply Hf; [left|done].
Qed.

(** A loop that appends [G x] at iteration [x], when it returns. *)
Lemma foldlR_concat_inv {A B : Type} (G : A → list B) (Q : A → Prop)
    (f : list B → A → result (list B)) (l : list A) :
  (∀ acc x acc', x ∈ l → f acc x = Ok acc' → acc' = acc ++ G x ∧ Q x) →
  ∀ acc acc', foldlR f acc l = Ok acc' →
              acc' = acc ++ concat (G <$> l) ∧ Forall Q l.
Proof.
  induction l as [|x l IH]; intros Hf acc acc'; simpl.
  - intros [= <-]. by rewrite app_nil_r.
  - intros (acc1 & Hx & Hl)%mbind_Ok_inv.
    destruct (Hf acc x acc1) as [-> HQ]; [left|done|].
    apply IH in Hl as [-> HQs]; [|intros; apply Hf; [by right|done]].
    split; [by rewrite app_assoc|by constructor].
Qed.

(** The device that lines 113-125 return for position [i] and ordinal
    [j] holds the matches at position [i] and carries the digest of [j]
    followed by them. *)
Lemma newDevice_instance w group raws i j d :
  Forall2 (λ pat raw, Glob w pat = Some raw) group raws →
  newDevice group (sortStrings <$> raws) i j = Ok d →
  d = mkdevice
        (v1beta1.mkDevice (spec_identifier j (slotPaths raws i))
           v1beta1.Healthy)
        (slotPaths raws i) ∧
  resolved w group (slotPaths raws i).
Proof.
  intros Hraws Hd.
  apply newDevice_Ok in Hd as (Hh & Hid & Hlen & Hidx).
  assert (Hraw : length raws = length group)
    by (symmetry; by eapply Forall2_length).
  assert (Hps : paths d = slotPaths raws i).
  { apply list_eq_same_length with (length group);
      [unfold slotPaths; by rewrite length_fmap|done|].
    intros k p q _ Hp Hq.
    apply Hidx, index2_Ok_inv in Hp as (ms & Hms & Hp).
    unfold slotPaths in Hq. rewrite list_lookup_fmap in Hms.
    rewrite list_lookup_fmap in Hq.
    destruct (raws !! k) as [raw|]; [|done]. simpl in Hms, Hq.
    injection Hms as <-. rewrite Hp in Hq. by injection Hq. }
  split.
  - rewrite <- Hps, <- Hid.
    destruct d as [[id h] ps]. unfold ID, Health in *. simpl in *. by subst.
  - exists i. rewrite <- Hps.
    apply Forall2_same_length_lookup. split; [done|].
    intros k pat p Hpat Hp.
    apply Hidx, index2_Ok_inv in Hp as (ms & Hms & Hp).
    rewrite list_lookup_fmap in Hms.
    destruct (raws !! k) as [raw|] eqn:Hrawk; [|done].
    simpl in Hms. injection Hms as <-. exists raw. split; [|done].
    by destruct (Forall2_lookup_lr _ _ _ _ _ _ Hraws Hpat Hrawk).
Qed.

(** One group: position after position, the instances of the paths at
    that position. *)
Lemma discoverGroup_instances w count devs group devs' :
  discoverGroup w count devs group = Ok devs' →
  ∃ slots, Forall (resolved w group) slots ∧
           devs' = devs ++ concat (instances count <$> slots).
Proof.
  destruct (decide (count = 0%N)) as [->|Hcount].
  { destruct (discoverGroup_count_zero w devs group) as [-> | ->]; [|done].
    intros [= <-]. exists []. by rewrite app_nil_r. }
  unfold discoverGroup. intros ([gpaths len] & Hglob & Hrun)%mbind_Ok_inv.
  destruct (globGroup_Ok_inv _ _ _ _ _ _ Hglob) as [raws Hraws].
  rewrite (globGroup_run w group raws 0 _ _ Hraws) in Hglob
    by (rewrite length_replicate; lia).
  rewrite take_0, drop_ge, app_nil_r in Hglob
    by (rewrite length_replicate; lia).
  cbn [app] in Hglob. injection Hglob as <- <-.
  exists (slotPaths raws <$> seq 0 (foldl shorter 0 (length <$> raws))).
  rewrite Forall_fmap, <- list_fmap_compose.
  apply and_comm. revert Hrun.
  apply (foldlR_concat_inv (instances count ∘ slotPaths raws)).
  intros acc i acc' _ Hrun. split.
  - revert Hrun. unfold instances, compose.
    apply (foldlR_map_inv (newDevice group (sortStrings <$> raws) i)).
    intros j d _ Hd.
    by destruct (newDevice_instance w group raws i j d Hraws Hd).
  - unfold ordinals in Hrun.
    destruct (N.to_nat count) as [|c] eqn:Hc; [lia|].
    cbn [seq fmap list_fmap foldlR] in Hrun.
    apply mbind_Ok_inv in Hrun as (acc1 & (d & Hd & _)%mbind_Ok_inv & _).
    by destruct (newDevice_instance w group raws i _ d Hraws Hd).
Qed.

Lemma discover_instances w count groups : ∀ acc devs,
  foldlR (discoverGroup w count) acc groups = Ok devs →
  ∃ slots,
    Forall (λ ps, ∃ group, group ∈ groups ∧ resolved w group ps) slots ∧
    devs = acc ++ concat (instances count <$> slots).
Proof.
  induction groups as [|group groups IH]; intros acc devs; simpl.
  - intros [= <-]. exists []. by rewrite app_nil_r.
  - intros (acc1 & Hg & Hrun)%mbind_Ok_inv.
    apply discoverGroup_instances in Hg as (slots1 & Hs1 & ->).
    apply IH in Hrun as (slots2 & Hs2 & ->).
    exists (slots1 ++ slots2). split.
    + apply Forall_app. split.
      * eapply Forall_impl; [exact Hs1|]. intros ps Hps. exists group.
        split; [left|done].
      * eapply Forall_impl; [exact Hs2|]. intros ps (g & Hg & Hps).
        exists g. split; [by right|done].
    + by rewrite fmap_app, concat_app, app_assoc.
Qed.

(** C7.  Whenever discovery returns, the list it returns is made of
    runs, one per position of a group: the run of the paths [ps] found at
    that position, pattern after pattern, holds one device per ordinal
    [j] = 0, 1, ..., Count - 1, in this order, and the device of ordinal
    [j] is Healthy, holds [ps] and carries as identifier the lowercase
    hexadecimal SHA-1 digest of the decimal representation of [j], its own
    ordinal, followed by the paths of [ps] in pattern order.  The
    identifier is thus a function of the ordinal and the paths alone. *)
Theorem discover_identifier w spec devs :
  discover w spec = Ok devs →
  ∃ slots : list (list string),
    Forall (λ ps, ∃ group, group ∈ Groups spec ∧ resolved w group ps) slots ∧
    devs =
    concat ((λ ps,
       (λ j, mkdevice
               (v1beta1.mkDevice
                  (hex (sha1.sum (FormatUint j +:+ String.concat "" ps)))
                  v1beta1.Healthy)
               ps) <$> ordinals (Count spec)) <$> slots).
Proof.
  intros Hd. by apply discover_instances in Hd.
Qed.

(** ** The table after a reconciliation *)

Lemma tableOf_snoc m devs d :
  tableOf m (devs ++ [d]) = <[ID d := d]> (tableOf m devs).
Proof. unfold tableOf. by rewrite foldl_snoc. Qed.

(** Under an identifier the table holds the last candidate that carries
    it. *)
Lemma tableOf_lookup_last devs id :
  tableOf ∅ devs !! id = last (filter (λ d, ID d = id) devs).
Proof.
  induction devs as [|d devs IH] using rev_ind; [done|].
  rewrite tableOf_snoc, filter_app, filter_cons, filter_nil.
  destruct (decide (ID d = id)) as [<-|Hne].
  - by rewrite lookup_insert_eq, last_snoc.
  - by rewrite lookup_insert_ne, app_nil_r.
Qed.

Lemma size_idSet_le devs : size (idSet devs) ≤ length devs.
Proof.
  induction devs as [|d devs IH].
  - change (size (∅ : gset string) ≤ 0). by rewrite size_empty.
  - change (size ({[ID d]} ∪ idSet devs) ≤ S (length devs)).
    rewrite size_union_alt, size_singleton.
    assert (size (idSet devs ∖ {[ID d]}) ≤ size (idSet devs))
      by (apply subseteq_size; set_solver).
    lia.
Qed.

(** X11.  After a successful reconciliation the gauge holds the number
    of candidates and the table holds, under each identifier, the last
    candidate that carries it: the table has at most as many devices as
    the gauge says, and exactly as many when the identifiers of the
    candidates are pairwise different. *)
Theorem refreshDevices_table w gp devs :
  discover w (ds gp) = Ok devs →
  let gp' := final (refreshDevices w gp) in
  deviceGauge gp' = length devs ∧
  (∀ id, devices gp' !! id = last (filter (λ d, ID d = id) devs)) ∧
  size (devices gp') ≤ deviceGauge gp' ∧
  (NoDup (ID <$> devs) → size (devices gp') = deviceGauge gp').
Proof.
  intros Hd. cbn zeta. rewrite (refreshDevices_run _ _ _ Hd).
  cbn [final set_devices set_deviceGauge devices deviceGauge].
  split; [done|]. split; [apply tableOf_lookup_last|].
  rewrite <- size_dom, dom_tableOf, dom_empty_L, union_empty_r_L.
  split; [apply size_idSet_le|].
  intros Hnd. unfold idSet. by rewrite size_list_to_set, length_fmap.
Qed.

(** ** Allocation and the other operations *)

Lemma firstRejection_None m ids :
  firstRejection m ids = None ↔ Forall (λ id, checkDevice m id = None) ids.
Proof.
  induction ids as [|id ids IH]; [done|]. rewrite firstRejection_cons.
  rewrite Forall_cons. destruct (checkDevice m id); [|by rewrite IH; intuition].
  split; [done|]. by intros [? _].
Qed.

Lemma checkDevice_None m id :
  checkDevice m id = None ↔ ∃ dev, allocatable m id dev.
Proof.
  unfold checkDevice, allocatable. destruct (m !! id) as [dev|].
  - destruct (decide (Health dev ≠ v1beta1.Healthy)) as [Hh|Hh].
    + split; [done|]. by intros (dev' & [= <-] & ?).
    + split; [|done]. intros _. exists dev. split; [done|].
      by destruct (decide (Health dev = v1beta1.Healthy)).
  - split; [done|]. by intros (dev' & [=] & _).
Qed.

(** X12.  Devices are never reserved: [Allocate] leaves the table as it
    is, so whatever was requested before, and whether that call succeeded
    or failed, a later [Allocate] returns what it would have returned
    without it. *)
Theorem Allocate_never_reserves req' req gp :
  devices (final (Allocate req' gp)) = devices gp ∧
  value (Allocate req (final (Allocate req' gp))) = value (Allocate req gp).
Proof.
  split; [apply Allocate_devices|].
  by rewrite !Allocate_value, Allocate_devices.
Qed.

(** X13.  Before the first reconciliation the table is empty: on a new
    plugin a request that names at least one device fails with "does not
    exist" for the first identifier it names. *)
Theorem Allocate_before_discovery spec req id ids :
  requestedIDs req = id :: ids →
  value (Allocate req (NewGenericPlugin spec)) = Err (ErrNotExist id).
Proof.
  intros Hids. rewrite Allocate_value, Hids, firstRejection_cons.
  unfold checkDevice, NewGenericPlugin. cbn [devices].
  by rewrite lookup_empty.
Qed.

(** X6.  A device that is gone cannot be allocated: after a successful
    reconciliation, a request naming an identifier that no candidate
    carries fails, whatever the table held before. *)
Theorem Allocate_after_removal w gp devs req id :
  discover w (ds gp) = Ok devs →
  id ∈ requestedIDs req →
  id ∉ ID <$> devs →
  ∃ e, value (Allocate req (final (refreshDevices w gp))) = Err e.
Proof.
  intros Hd Hin Hid. rewrite Allocate_value.
  destruct (firstRejection _ _) as [e|] eqn:Hrej; [by exists e|].
  exfalso. apply firstRejection_None in Hrej.
  rewrite Forall_forall in Hrej. specialize (Hrej id Hin).
  apply checkDevice_None in Hrej as (dev & Hl & _).
  rewrite (refreshDevices_run _ _ _ Hd) in Hl. cbn [final set_devices devices] in Hl.
  apply tableOf_lookup in Hl as [[Hdev <-]|Hl];
    [|by rewrite lookup_empty in Hl].
  apply Hid, list_elem_of_fmap. by exists dev.
Qed.

Lemma filter_ID_absent devs id :
  id ∉ ID <$> devs → filter (λ x, ID x = id) devs = [].
Proof.
  induction devs as [|x devs IH]; intros Hid; [done|].
  rewrite fmap_cons, not_elem_of_cons in Hid. destruct Hid as [Hne Hid].
  rewrite filter_cons, decide_False by done. by apply IH.
Qed.

Lemma filter_ID_NoDup devs d :
  NoDup (ID <$> devs) → d ∈ devs → filter (λ x, ID x = ID d) devs = [d].
Proof.
  induction devs as [|x devs IH]; intros Hnd Hin; [by apply elem_of_nil in Hin|].
  rewrite fmap_cons in Hnd. apply NoDup_cons in Hnd as [Hx Hnd].
  rewrite filter_cons. apply elem_of_cons in Hin as [<-|Hin].
  - rewrite decide_True by done. f_equal. by apply filter_ID_absent.
  - rewrite decide_False; [by apply IH|].
    intros Heq. apply Hx. rewrite Heq. apply list_elem_of_fmap. by exists d.
Qed.

(** X14.  From discovery to allocation: after a successful
    reconciliation whose candidates have pairwise different identifiers,
    a container that requests any of the discovered devices by their
    identifiers, in any order and number, receives exactly their paths as
    bindings, device after device. *)
Theorem Allocate_after_discovery w gp devs wanted :
  discover w (ds gp) = Ok devs →
  NoDup (ID <$> devs) →
  Forall (λ d, d ∈ devs) wanted →
  value (Allocate
           (v1beta1.mkAllocateRequest
              [v1beta1.mkContainerAllocateRequest (ID <$> wanted)])
           (final (refreshDevices w gp)))
  = Ok (v1beta1.mkAllocateResponse
          [v1beta1.mkContainerAllocateResponse
             (concat (bindingsOf <$> wanted))]).
Proof.
  intros Hd Hnd Hwanted. rewrite Allocate_value.
  rewrite (refreshDevices_run _ _ _ Hd). cbn [final set_devices devices].
  assert (Hlook : ∀ d, d ∈ wanted → tableOf ∅ devs !! ID d = Some d).
  { intros d Hin. rewrite Forall_forall in Hwanted.
    by rewrite tableOf_lookup_last, filter_ID_NoDup by auto. }
  assert (Hhealth : ∀ d, d ∈ wanted → Health d = v1beta1.Healthy).
  { intros d Hin. rewrite Forall_forall in Hwanted.
    apply discover_Ok in Hd. rewrite Forall_forall in Hd.
    by destruct (Hd d (Hwanted d Hin)). }
  unfold requestedIDs. cbn [v1beta1.ContainerRequests v1beta1.DevicesIDs
    fmap list_fmap concat]. rewrite app_nil_r.
  replace (firstRejection (tableOf ∅ devs) (list_fmap _ _ ID wanted))
    with (@None error).
  2: { symmetry. apply firstRejection_None, Forall_fmap, Forall_forall.
       intros d Hin. apply checkDevice_None. exists d. split; auto. }
  do 3 f_equal. unfold containerResponse. cbn [v1beta1.DevicesIDs]. f_equal.
  rewrite <- list_fmap_compose. f_equal.
  apply list_fmap_ext. intros k d Hk. simpl.
  rewrite Hlook; [done|]. by eapply list_elem_of_lookup_2.
Qed.

(** ** Invariants of the plugin *)

Lemma discover_table_entry w spec devs d :
  discover w spec = Ok devs → d ∈ devs →
  Health d = v1beta1.Healthy ∧
  (∃ j, (j < Count spec)%N ∧ ID d = spec_identifier j (paths d)) ∧
  (∃ group, group ∈ Groups spec ∧ length (paths d) = length group).
Proof.
  intros Hd Hin.
  destruct (discover_aligned _ _ _ _ Hd Hin) as (group & Hgroup & i & Hall).
  apply discover_Ok in Hd. rewrite Forall_forall in Hd.
  destruct (Hd d Hin) as [Hh Hid]. repeat split; [done|done|].
  exists group. split; [done|]. symmetry. by eapply Forall2_length.
Qed.

Lemma refreshDevices_tableInv spec w :
  preserves (tableInv spec) (refreshDevices w).
Proof.
  intros gp [Hds Htable].
  destruct (discover w (ds gp)) as [devs|e|i n] eqn:Hd.
  - rewrite (refreshDevices_run _ _ _ Hd). split; [done|]. cbn [final].
    intros id d [[Hin Hid]|Hm]%tableOf_lookup;
      [|by rewrite lookup_empty in Hm].
    rewrite Hds in Hd.
    destruct (discover_table_entry _ _ _ _ Hd Hin) as (Hh & Hj & Hgroup).
    repeat split; [done|done| |done].
    destruct Hj as (j & Hj & Heq). exists j. by rewrite <- Hid.
  - by rewrite (refreshDevices_Err _ _ _ Hd).
  - by rewrite (refreshDevices_Panic _ _ _ _ Hd).
Qed.

Lemma Allocate_final req gp :
  final (Allocate req gp) = gp ∨
  ∃ n, final (Allocate req gp) = add_allocationsCounter n gp.
Proof.
  rewrite Allocate_run. cbn zeta. cbn [final].
  destruct (value (allocateRequests _ _ gp)); eauto.
Qed.

Lemma Allocate_tableInv spec req : preserves (tableInv spec) (Allocate req).
Proof.
  intros gp Hinv. by destruct (Allocate_final req gp) as [-> | [n ->]].
Qed.

Lemma ListAndWatch_preserves P w0 ws :
  (∀ w, preserves P (refreshDevices w)) → preserves P (ListAndWatch w0 ws).
Proof.
  intros Hrefresh.
  assert (Hpush : ∀ w ok, preserves P (pushDevices w ok;; sleep)).
  { intros w ok. apply preserves_bind.
    - apply preserves_same, pushDevices_final.
    - intros _. by apply preserves_same. }
  apply preserves_bind.
  - apply preserves_bind; [apply Hrefresh|]. intros _. apply Hpush.
  - intros _. apply preserves_forM. intros _ w. apply preserves_bind.
    + apply Hrefresh.
    + intros ok. apply Hpush.
Qed.

Lemma reaches_tableInv spec gp : reaches spec gp → tableInv spec gp.
Proof.
  induction 1 as [|w gp _ IH|req gp _ IH|w0 ws gp _ IH
                  |gp _ IH|req gp _ IH|req gp _ IH].
  - split; [done|]. intros id d Hl.
    unfold NewGenericPlugin in Hl. cbn [devices] in Hl.
    by rewrite lookup_empty in Hl.
  - by apply refreshDevices_tableInv.
  - by apply Allocate_tableInv.
  - revert IH. apply ListAndWatch_preserves, refreshDevices_tableInv.
  - exact IH.
  - exact IH.
  - exact IH.
Qed.

(** X15.  In every state that the plugin reaches through its methods
    ([refreshDevices], [Allocate], [ListAndWatch],
    [GetDevicePluginOptions], [PreStartContainer],
    [GetPreferredAllocation]), the device specification is the one given
    to [NewGenericPlugin], and every device of the table is stored under
    its own identifier, has the health that [GetDeviceState] reports for
    it, carries as identifier the digest of an ordinal below the count
    followed by its paths, and has one path per pattern of some group of
    the specification. *)
Theorem reaches_table_invariant spec gp :
  reaches spec gp →
  ds gp = spec ∧
  ∀ id d, devices gp !! id = Some d →
    ID d = id ∧
    Health d = GetDeviceState id ∧
    (∃ j, (j < Count spec)%N ∧ id = spec_identifier j (paths d)) ∧
    (∃ group, group ∈ Groups spec ∧ length (paths d) = length group).
Proof. apply reaches_tableInv. Qed.

(** ** The shape of identifiers *)

Lemma hex_length bs : String.length (hex bs) = 2 * length bs.
Proof. induction bs as [|b bs IH]; simpl; [done|]. rewrite IH. lia. Qed.

Lemma sha1_sum_bytes msg :
  length (sha1.sum msg) = 20 ∧ Forall (λ b, (b < 256)%N) (sha1.sum msg).
Proof.
  unfold sha1.sum.
  destruct (foldl sha1.compress sha1.init _) as [[[[h0 h1] h2] h3] h4].
  split; [done|]. cbn [sha1.be_bytes app].
  repeat constructor; by apply N.mod_lt.
Qed.

Lemma hexdigit_lowerHex n : (n < 16)%N → lowerHex (hexdigit n).
Proof.
  intros Hn. unfold hexdigit, lowerHex.
  assert (Hk : N.to_nat n < 16) by lia. revert Hk.
  generalize (N.to_nat n). intros k Hk.
  do 16 (destruct k as [|k]; [simpl; set_solver|]). lia.
Qed.

Lemma hex_lowerHex bs :
  Forall (λ b, (b < 256)%N) bs →
  Forall lowerHex (String.list_ascii_of_string (hex bs)).
Proof.
  induction 1 as [|b bs Hb _ IH]; simpl; [constructor|].
  constructor; [|constructor; [|done]]; apply hexdigit_lowerHex.
  - apply N.Div0.div_lt_upper_bound. lia.
  - by apply N.mod_lt.
Qed.

(** X16.  Every identifier that discovery assigns is a string of 40
    characters, each a decimal digit or a letter from a to f. *)
Theorem discover_identifier_shape w spec devs d :
  discover w spec = Ok devs →
  d ∈ devs →
  String.length (ID d) = 40 ∧
  Forall lowerHex (String.list_ascii_of_string (ID d)).
Proof.
  intros Hd%discover_Ok Hin. rewrite Forall_forall in Hd.
  destruct (Hd d Hin) as (_ & j & _ & ->). unfold spec_identifier.
  destruct (sha1_sum_bytes (FormatUint j +:+ String.concat "" (paths d)))
    as [Hlen Hbytes].
  split; [by rewrite hex_length, Hlen|by apply hex_lowerHex].
Qed.

(** ** The mutex *)

Lemma mutexAfter_app evs1 : ∀ evs2 held,
  mutexAfter held (evs1 ++ evs2) =
  mutexAfter held evs1 ≫= λ held', mutexAfter held' evs2.
Proof.
  induction evs1 as [|ev evs1 IH]; intros evs2 held; [done|].
  destruct ev, held; simpl; by rewrite ?IH.
Qed.

Lemma releases_bind {A B : Type} (m : M A) (f : A → M B) :
  releases m → (∀ a, releases (f a)) → releases (m ≫= f).
Proof.
  intros Hm Hf gp. rewrite run_bind. specialize (Hm gp).
  destruct (value (m gp)); cbn [events]; [|done..].
  rewrite mutexAfter_app, Hm. apply Hf.
Qed.

Lemma releases_forM {A S : Type} (f : S → A → M S) (l : list A) :
  (∀ s x, releases (f s x)) → ∀ s, releases (forM f s l).
Proof.
  intros Hf. induction l as [|x l IH]; intros s; [by intros gp|].
  rewrite run_forM_cons. by apply releases_bind.
Qed.

Lemma mutexAfter_accesses evs :
  Forall (λ ev, ev = EvReadDevices ∨ ev = EvWriteDevices) evs →
  mutexAfter true (evs ++ [EvUnlock]) = Some false.
Proof. induction 1 as [|ev evs [-> | ->] _ IH]; simpl; done. Qed.

Lemma refreshDevices_releases w : releases (refreshDevices w).
Proof.
  intros gp. destruct (discover w (ds gp)) as [devs|e|i n] eqn:Hd.
  - rewrite (refreshDevices_run _ _ _ Hd). cbn [events mutexAfter].
    apply mutexAfter_accesses, Forall_replicate. by right.
  - by rewrite (refreshDevices_Err _ _ _ Hd).
  - by rewrite (refreshDevices_Panic _ _ _ _ Hd).
Qed.

Lemma Allocate_releases req : releases (Allocate req).
Proof.
  intros gp. rewrite Allocate_run. cbn zeta. cbn [events mutexAfter].
  destruct (allocate_requests_run (v1beta1.ContainerRequests req) [] gp)
    as (_ & Hev & _).
  apply mutexAfter_accesses. eapply Forall_impl; [exact Hev|].
  intros ev ->. by left.
Qed.

Lemma pushDevices_releases w ok : releases (pushDevices w ok).
Proof.
  intros gp. rewrite pushDevices_run. destruct ok; [done|].
  by destruct (Send w _).
Qed.

Lemma ListAndWatch_releases w0 ws : releases (ListAndWatch w0 ws).
Proof.
  assert (Hpush : ∀ w ok, releases (pushDevices w ok;; sleep)).
  { intros w ok. apply releases_bind; [apply pushDevices_releases|].
    by intros _ gp. }
  apply releases_bind.
  - apply releases_bind; [apply refreshDevices_releases|]. intros _. apply Hpush.
  - intros _. apply releases_forM. intros _ w. apply releases_bind.
    + apply refreshDevices_releases.
    + intros ok. apply Hpush.
Qed.

(** X17.  Started with the mutex free, [refreshDevices], [Allocate] and
    [ListAndWatch] never lock it while it is held and never unlock it
    while it is free, and they leave it free however they end: with a
    result, with an error or with a panic. *)
Theorem mutex_released w req w0 ws gp :
  mutexAfter false (events (refreshDevices w gp)) = Some false ∧
  mutexAfter false (events (Allocate req gp)) = Some false ∧
  mutexAfter false (events (ListAndWatch w0 ws gp)) = Some false.
Proof.
  split; [apply refreshDevices_releases|].
  split; [apply Allocate_releases|apply ListAndWatch_releases].
Qed.

(** ** The watch loop over a whole run *)

Lemma segment_Err w k gp e :
  value (segment w k gp) = Err e →
  e = ErrDiscover ErrBadPattern ∨ ∃ res, Send w res = Some e.
Proof.
  unfold segment. rewrite run_bind.
  destruct (discover w (ds gp)) as [devs|e0|i n] eqn:Hd.
  - rewrite (refreshDevices_run _ _ _ Hd). cbn [value final events].
    rewrite run_bind, pushDevices_run.
    destruct (k false); cbn [value]; [done|].
    destruct (Send w _) as [e'|] eqn:Hsend; cbn [value]; [|done].
    intros [= <-]. right. eauto.
  - rewrite (refreshDevices_Err _ _ _ Hd). cbn [value].
    intros [= <-]. left. by destruct (discover_Err _ _ _ Hd) as [-> _].
  - by rewrite (refreshDevices_Panic _ _ _ _ Hd).
Qed.

Lemma ticks_Err ws : ∀ gp e,
  value (forM (λ _ w, ListAndWatch_tick w) () ws gp) = Err e →
  e = ErrDiscover ErrBadPattern ∨
  ∃ w res, w ∈ ws ∧ Send w res = Some e.
Proof.
  induction ws as [|w ws IH]; intros gp e; [done|].
  rewrite run_forM_cons, run_bind.
  destruct (value (ListAndWatch_tick w gp)) as [[]|e'|i n] eqn:Htick;
    cbn [value]; [| |done].
  - intros [->|(w' & res & Hin & Hsend)]%IH; [by left|].
    right. exists w', res. split; [by right|done].
  - intros [= <-]. apply (segment_Err w id) in Htick as [->|[res Hsend]];
      [by left|].
    right. exists w, res. split; [left|done].
Qed.

(** X18.  [ListAndWatch] returns only two kinds of error: the error of a
    malformed pattern, wrapped by [refreshDevices], or an error that
    [stream.Send] returned for one of its messages. *)
Theorem ListAndWatch_errors w0 ws gp e :
  value (ListAndWatch w0 ws gp) = Err e →
  e = ErrDiscover ErrBadPattern ∨
  ∃ w res, w ∈ w0 :: ws ∧ Send w res = Some e.
Proof.
  rewrite ListAndWatch_run, run_bind.
  destruct (value (ListAndWatch_start w0 gp)) as [[]|e'|i n] eqn:Hstart;
    cbn [value]; [| |done].
  - intros [->|(w' & res & Hin & Hsend)]%ticks_Err; [by left|].
    right. exists w', res. split; [by right|done].
  - intros [= <-].
    apply (segment_Err w0 (λ _, false)) in Hstart as [->|[res Hsend]];
      [by left|].
    right. exists w0, res. split; [left|done].
Qed.

Lemma segment_cases w k gp :
  World_ok w →
  afterRefresh w
    (match discover w (ds gp) with
     | Ok _ => Ok (k false)
     | Err e => Err (ErrDiscover e)
     | Panic i n => Panic i n
     end)
    (final (refreshDevices w gp)) (segment w k gp).
Proof.
  intros Hw.
  pose proof (watch_segment w (refreshDevices w) k gp Hw
                (sentOf_refreshDevices w gp)) as H.
  rewrite refreshDevices_value in H. by destruct (discover w (ds gp)).
Qed.

Lemma segment_Ok w k gp :
  World_ok w → k false = false →
  value (segment w k gp) = Ok () →
  ∃ res, sentOf (events (segment w k gp)) = [res] ∧
         fullList (devices (final (segment w k gp))) res.
Proof.
  intros Hw Hk Hv. pose proof (segment_cases w k gp Hw) as [Hfinal Hcase].
  destruct (discover w (ds gp)) as [devs|e|i n].
  - rewrite Hk in Hcase. destruct Hcase as (res & Hfull & Hsent & _).
    exists res. by rewrite Hfinal.
  - destruct Hcase as [_ Hv']. congruence.
  - destruct Hcase as [_ Hv']. congruence.
Qed.

Lemma ticks_in_sync ws : ∀ gp res0,
  Forall World_ok ws →
  fullList (devices gp) res0 →
  value (forM (λ _ w, ListAndWatch_tick w) () ws gp) = Ok () →
  ∃ res,
    last (res0 :: sentOf (events (forM (λ _ w, ListAndWatch_tick w) () ws gp)))
      = Some res ∧
    fullList
      (devices (final (forM (λ _ w, ListAndWatch_tick w) () ws gp))) res.
Proof.
  induction ws as [|w ws IH]; intros gp res0 Hws Hfull; [by exists res0|].
  apply Forall_cons in Hws as [Hw Hws].
  rewrite run_forM_cons, run_bind.
  destruct (value (ListAndWatch_tick w gp)) as [[]|e|i n] eqn:Htick;
    cbn [value final events]; [|done..].
  intros Hv.
  destruct (segment_Ok w id gp Hw eq_refl Htick) as (res1 & Hsent & Hfull1).
  destruct (IH _ res1 Hws Hfull1 Hv) as (res & Hlast & Hres).
  exists res. split; [|done].
  change (segment w id gp) with (ListAndWatch_tick w gp) in Hsent.
  by rewrite sentOf_app, Hsent.
Qed.

(** X19.  While [ListAndWatch] is waiting for the next tick, the last
    message it has sent lists exactly the devices of the table as it is
    now, by identifier and health: what the kubelet was told last agrees
    with what [Allocate] will accept. *)
Theorem ListAndWatch_in_sync w0 ws gp :
  Forall World_ok (w0 :: ws) →
  value (ListAndWatch w0 ws gp) = Ok () →
  ∃ res,
    last (sentOf (events (ListAndWatch w0 ws gp))) = Some res ∧
    fullList (devices (final (ListAndWatch w0 ws gp))) res.
Proof.
  intros [Hw0 Hws]%Forall_cons. rewrite ListAndWatch_run, run_bind.
  destruct (value (ListAndWatch_start w0 gp)) as [[]|e|i n] eqn:Hstart;
    cbn [value final events]; [|done..].
  intros Hv.
  destruct (segment_Ok w0 (λ _, false) gp Hw0 eq_refl Hstart)
    as (res1 & Hsent & Hfull1).
  destruct (ticks_in_sync ws _ res1 Hws Hfull1 Hv) as (res & Hlast & Hres).
  exists res. split; [|done].
  change (segment w0 (λ _, false) gp) with (ListAndWatch_start w0 gp) in Hsent.
  by rewrite sentOf_app, Hsent.
Qed.

Lemma fullList_healthy gp res :
  healthyTable gp → fullList (devices gp) res → reportsHealthy res.
Proof.
  intros Hgp Hfull. unfold reportsHealthy, fullList in *. rewrite Hfull.
  apply Forall_fmap, Forall_forall. intros [id d] Hin%elem_of_map_to_list.
  simpl. by destruct (Hgp id d Hin).
Qed.

Lemma segment_healthy w k gp :
  World_ok w → healthyTable gp →
  healthyTable (final (segment w k gp)) ∧
  Forall reportsHealthy (sentOf (events (segment w k gp))).
Proof.
  intros Hw Hgp. pose proof (segment_cases w k gp Hw) as [Hfinal Hcase].
  pose proof (refreshDevices_healthy w gp Hgp) as Hgp'.
  rewrite Hfinal. split; [done|].
  destruct (discover w (ds gp)) as [devs|e|i n].
  - destruct (k false).
    + destruct Hcase as [-> _]. constructor.
    + destruct Hcase as (res & Hfull & -> & _).
      repeat constructor. by eapply fullList_healthy.
  - destruct Hcase as [-> _]. constructor.
  - destruct Hcase as [-> _]. constructor.
Qed.

Lemma ticks_healthy ws : ∀ gp,
  Forall World_ok ws → healthyTable gp →
  Forall reportsHealthy
    (sentOf (events (forM (λ _ w, ListAndWatch_tick w) () ws gp))).
Proof.
  induction ws as [|w ws IH]; intros gp Hws Hgp; [constructor|].
  apply Forall_cons in Hws as [Hw Hws].
  destruct (segment_healthy w id gp Hw Hgp) as [Hgp' Hsent].
  rewrite run_forM_cons, run_bind.
  destruct (value (ListAndWatch_tick w gp)) as [[]|e|i n];
    cbn [events]; [|done..].
  rewrite sentOf_app. apply Forall_app. split; [done|]. by apply IH.
Qed.

(** X20.  The kubelet is never told of an unhealthy device: in every
    message that [ListAndWatch] sends, from any state that the plugin can
    reach, every device is reported as Healthy. *)
Theorem ListAndWatch_reports_healthy spec w0 ws gp res dev :
  reaches spec gp →
  Forall World_ok (w0 :: ws) →
  res ∈ sentOf (events (ListAndWatch w0 ws gp)) →
  dev ∈ v1beta1.ListDevices res →
  v1beta1.Health dev = v1beta1.Healthy.
Proof.
  intros Hgp%reaches_tableInv [Hw0 Hws]%Forall_cons Hres Hdev.
  assert (Hhealthy : healthyTable gp).
  { intros id d Hl. destruct Hgp as [_ Hgp].
    by destruct (Hgp id d Hl) as (? & ? & _). }
  assert (Hall : Forall reportsHealthy
                   (sentOf (events (ListAndWatch w0 ws gp)))).
  { destruct (segment_healthy w0 (λ _, false) gp Hw0 Hhealthy)
      as [Hgp' Hsent].
    rewrite ListAndWatch_run, run_bind.
    destruct (value (ListAndWatch_start w0 gp)) as [[]|e|i n];
      cbn [events]; [|done..].
    rewrite sentOf_app. apply Forall_app. split; [done|].
    by apply ticks_healthy. }
  rewrite Forall_forall in Hall. specialize (Hall res Hres).
  unfold reportsHealthy in Hall. rewrite Forall_forall in Hall. by apply Hall.
Qed.

(** ** Instances of the further properties *)

(** [discover_devices] on one pattern with two matches and a count of
    2: the four devices of [tmpDevices]. *)
Lemma discover_devices_witness :
  concat ((λ raws, groupDevices raws (Count tmpSpec))
            <$> [[["/tmp/dev/a1"; "/tmp/dev/a2"]]]) = tmpDevices ∧
  discover tmpWorld tmpSpec =
  Ok (concat ((λ raws, groupDevices raws (Count tmpSpec))
                <$> [[["/tmp/dev/a1"; "/tmp/dev/a2"]]])).
Proof.
  split; [vm_compute; reflexivity|].
  apply (discover_devices tmpWorld tmpSpec [[["/tmp/dev/a1"; "/tmp/dev/a2"]]]).
  repeat constructor; done.
Defined.

(** [Allocate_after_removal] once the second adapter is unplugged. *)
Lemma Allocate_after_removal_witness :
  ∃ e, value (Allocate requestBoth
                (final (refreshDevices unpluggedWorld serialPlugin))) = Err e.
Proof.
  apply (Allocate_after_removal unpluggedWorld serialPlugin [usb0]
           requestBoth (ID usb1)).
  - vm_compute. reflexivity.
  - left.
  - intros Hin. apply list_elem_of_singleton in Hin. discriminate Hin.
Defined.

(** [discover_aligned] on the second adapter. *)
Lemma discover_aligned_witness :
  ∃ group, group ∈ Groups serialSpec ∧ aligned serialWorld group usb1.
Proof.
  apply (discover_aligned serialWorld serialSpec [usb0; usb1] usb1).
  - vm_compute. reflexivity.
  - right. left.
Defined.

(** [discover_count_zero] where the first pattern matches nothing and
    the second one path. *)
Lemma discover_count_zero_witness :
  discover videoWorld videoSpecZero = Ok [] ∨
  discover videoWorld videoSpecZero = Err ErrBadPattern.
Proof. apply (discover_count_zero videoWorld videoSpecZero). reflexivity. Defined.

(** [refreshDevices_table] on the first reconciliation with the two
    adapters. *)
Lemma refreshDevices_table_witness :
  deviceGauge serialPlugin = length [usb0; usb1] ∧
  (∀ id, devices serialPlugin !! id
         = last (filter (λ d, ID d = id) [usb0; usb1])) ∧
  size (devices serialPlugin) ≤ deviceGauge serialPlugin ∧
  (NoDup (ID <$> [usb0; usb1]) →
   size (devices serialPlugin) = deviceGauge serialPlugin).
Proof.
  apply (refreshDevices_table serialWorld (NewGenericPlugin serialSpec)
           [usb0; usb1]).
  vm_compute. reflexivity.
Defined.

(** [Allocate_before_discovery] on the request for the first adapter and
    "B". *)
Lemma Allocate_before_discovery_witness :
  value (Allocate requestUnknown (NewGenericPlugin serialSpec))
  = Err (ErrNotExist (ID usb0)).
Proof.
  apply (Allocate_before_discovery serialSpec requestUnknown (ID usb0) ["B"]).
  reflexivity.
Defined.

(** [Allocate_after_discovery]: the second adapter, the first, and the
    second again. *)
Lemma Allocate_after_discovery_witness :
  value (Allocate
           (v1beta1.mkAllocateRequest
              [v1beta1.mkContainerAllocateRequest
                 (ID <$> [usb1; usb0; usb1])])
           serialPlugin)
  = Ok (v1beta1.mkAllocateResponse
          [v1beta1.mkContainerAllocateResponse
             (concat (bindingsOf <$> [usb1; usb0; usb1]))]).
Proof.
  apply (Allocate_after_discovery serialWorld (NewGenericPlugin serialSpec)
           [usb0; usb1] [usb1; usb0; usb1]).
  - vm_compute. reflexivity.
  - refine (bool_decide_unpack _ _). vm_compute. exact I.
  - repeat constructor.
Defined.

(** [reaches_table_invariant] on the plugin after one reconciliation. *)
Lemma reaches_table_invariant_witness :
  ds serialPlugin = serialSpec ∧
  ∀ id d, devices serialPlugin !! id = Some d →
    ID d = id ∧
    Health d = GetDeviceState id ∧
    (∃ j, (j < Count serialSpec)%N ∧ id = spec_identifier j (paths d)) ∧
    (∃ group, group ∈ Groups serialSpec ∧ length (paths d) = length group).
Proof.
  apply (reaches_table_invariant serialSpec serialPlugin).
  apply reaches_refresh, reaches_new.
Defined.

(** [discover_identifier_shape] on the first adapter. *)
Lemma discover_identifier_shape_witness :
  String.length (ID usb0) = 40 ∧
  Forall lowerHex (String.list_ascii_of_string (ID usb0)).
Proof.
  apply (discover_identifier_shape serialWorld serialSpec [usb0; usb1] usb0).
  - vm_compute. reflexivity.
  - left.
Defined.

(** [ListAndWatch_errors] when the stream is closed at the first tick. *)
Lemma ListAndWatch_errors_witness :
  value (ListAndWatch serialWorld [closedWorld] (NewGenericPlugin serialSpec))
    = Err (ErrSend "transport is closing") ∧
  (ErrSend "transport is closing" = ErrDiscover ErrBadPattern ∨
   ∃ w res, w ∈ serialWorld :: [closedWorld] ∧
            Send w res = Some (ErrSend "transport is closing")).
Proof.
  split; [vm_compute; reflexivity|].
  apply (ListAndWatch_errors serialWorld [closedWorld]
           (NewGenericPlugin serialSpec)).
  vm_compute. reflexivity.
Defined.

Lemma quietWorld_ok table : World_ok (quietWorld table).
Proof. intros m. reflexivity. Qed.

(** [ListAndWatch_in_sync] after the call and one tick, the second
    adapter being unplugged in between. *)
Lemma ListAndWatch_in_sync_witness :
  ∃ res,
    last (sentOf (events (ListAndWatch serialWorld [unpluggedWorld]
                            (NewGenericPlugin serialSpec)))) = Some res ∧
    fullList (devices (final (ListAndWatch serialWorld [unpluggedWorld]
                                (NewGenericPlugin serialSpec)))) res.
Proof.
  apply (ListAndWatch_in_sync serialWorld [unpluggedWorld]
           (NewGenericPlugin serialSpec)).
  - repeat constructor; apply quietWorld_ok.
  - vm_compute. reflexivity.
Defined.

(** [ListAndWatch_reports_healthy] on the message of the first tick. *)
Lemma ListAndWatch_reports_healthy_witness :
  v1beta1.mkListAndWatchResponse [Device usb0]
    ∈ sentOf (events (ListAndWatch serialWorld [unpluggedWorld]
                        (NewGenericPlugin serialSpec))) ∧
  v1beta1.Health (Device usb0) = v1beta1.Healthy.
Proof.
  assert (Hsent : v1beta1.mkListAndWatchResponse [Device usb0]
    ∈ sentOf (events (ListAndWatch serialWorld [unpluggedWorld]
                        (NewGenericPlugin serialSpec))))
    by (vm_compute; right; left).
  split; [exact Hsent|].
  apply (ListAndWatch_reports_healthy serialSpec serialWorld [unpluggedWorld]
           (NewGenericPlugin serialSpec)
           (v1beta1.mkListAndWatchResponse [Device usb0]) (Device usb0)).
  - apply reaches_new.
  - repeat constructor; apply quietWorld_ok.
  - exact Hsent.
  - left.
Defined.

(** [discover_identifier] on two patterns and a count of 12: the device
    at index 10 is the instance of ordinal 10 at the first position, with
    the digest of "10/dev/spidev0/dev/gpiochip0"; the last one, at index
    23, is the instance of ordinal 11 at the second position, with the
    digest of "11/dev/spidev1/dev/gpiochip1". *)
Lemma discover_identifier_witness :
  ∃ devs,
    discover spiWorld spiSpec = Ok devs ∧
    length devs = 24 ∧
    devs !! 10 =
      Some (mkdevice
              (v1beta1.mkDevice "0ab577b321057062a0ddcd568541a05483c63004"
                 v1beta1.Healthy)
              ["/dev/spidev0"; "/dev/gpiochip0"]) ∧
    devs !! 23 =
      Some (mkdevice
              (v1beta1.mkDevice "1cd9996c0be54ec2cbf30092c759135978fa5066"
                 v1beta1.Healthy)
              ["/dev/spidev1"; "/dev/gpiochip1"]) ∧
    ∃ slots : list (list string),
      Forall (λ ps, ∃ group, group ∈ Groups spiSpec ∧
                             resolved spiWorld group ps) slots ∧
      devs =
      concat ((λ ps,
         (λ j, mkdevice
                 (v1beta1.mkDevice
                    (hex (sha1.sum (FormatUint j +:+ String.concat "" ps)))
                    v1beta1.Healthy)
                 ps) <$> ordinals (Count spiSpec)) <$> slots).
Proof.
  eexists. split; [vm_compute; reflexivity|].
  split; [reflexivity|]. split; [reflexivity|]. split; [reflexivity|].
  apply (discover_identifier spiWorld spiSpec). vm_compute. reflexivity.
Defined.

(** [refreshDevices_forgets] once the second adapter is unplugged: the
    plugin that held both adapters and a new plugin end with the same
    table, which no longer holds the second adapter. *)
Lemma refreshDevices_forgets_witness :
  devices serialPlugin !! ID usb1 = Some usb1 ∧
  devices (NewGenericPlugin serialSpec) !! ID usb1 = None ∧
  devices (final (refreshDevices unpluggedWorld serialPlugin)) !! ID usb1
    = None ∧
  devices (final (refreshDevices unpluggedWorld serialPlugin))
  = devices (final (refreshDevices unpluggedWorld
                      (NewGenericPlugin serialSpec))).
Proof.
  split; [vm_compute; reflexivity|].
  split; [vm_compute; reflexivity|].
  split; [vm_compute; reflexivity|].
  destruct (refreshDevices_forgets unpluggedWorld serialPlugin
              (NewGenericPlugin serialSpec)) as [H _].
  apply H.
  - vm_compute. reflexivity.
  - exists [usb0]. vm_compute. reflexivity.
Defined.
